(** * Chess-Analytica: the frequency queries of [ChessDotCom.Profile]

    A shallow embedding of [src/chess_analytica/ChessDotCom.py]: the
    exchange sort [sortMovesAndFrequencies], the game filter
    [Profile.filterGameType] and the queries [findGamesWithFEN],
    [findMovesAfterFEN], [moveTable] and [mostCommonMove].

    Python lists are Rocq lists read with [!!] and written with
    [<[i:=x]>]; an index out of range raises [IndexError], which the
    embedding returns in the [result] type.  Python integers are [Z],
    Python strings are [string].

    The module [Api] embeds the part of [Profile] that talks to chess.com
    and to the cache: [calc_pct] and [retrieve_player_stats] over decoded
    JSON documents, and the requests, [save_info], [load_info] and the
    start of the constructor as methods that change the object and the
    world, the calls of the libraries being the fields of a class. *)

From Stdlib Require Import ZArith String Ascii Lia.
From stdpp Require Import base list strings pretty sorting.

Open Scope string_scope.
Open Scope Z_scope.
Open Scope list_scope.

(** ** Python values and exceptions *)

Module Py.

(** The exceptions that list operations of the source can raise. *)
Inductive exn := IndexError | ValueError.

(** The outcome of a call: a returned value or a raised exception. *)
Inductive result (A : Type) : Type :=
| Ok (a : A)
| Raise (e : exn).
Global Arguments Ok {A} a.
Global Arguments Raise {A} e.

Global Instance result_ret : MRet result := fun A a => Ok a.
Global Instance result_bind : MBind result := fun A B f m =>
  match m with
  | Ok a => f a
  | Raise e => Raise e
  end.

(** [l[i]] *)
Definition getitem {A} (l : list A) (i : nat) : result A :=
  match l !! i with
  | Some x => Ok x
  | None => Raise IndexError
  end.

(** [l[i] = x] *)
Definition setitem {A} (l : list A) (i : nat) (x : A) : result (list A) :=
  if decide (i < length l)%nat then Ok (<[i:=x]> l) else Raise IndexError.

(** [l.index(x)]: the position of the first element equal to [x]. *)
Fixpoint index `{EqDecision A} (x : A) (l : list A) : option nat :=
  match l with
  | [] => None
  | y :: l' => if decide (y = x) then Some 0%nat else S <$> index x l'
  end.

Definition list_index `{EqDecision A} (l : list A) (x : A) : result nat :=
  match index x l with
  | Some i => Ok i
  | None => Raise ValueError
  end.

(** [x in l] *)
Definition list_in `{EqDecision A} (x : A) (l : list A) : bool :=
  bool_decide (x ∈ l).

(** [for x in xs: body], the loop state threaded through [body]. *)
Fixpoint for_each {A S} (xs : list A) (body : A → S → result S) (s : S)
  : result S :=
  match xs with
  | [] => Ok s
  | x :: xs' => s' ← body x s; for_each xs' body s'
  end.

(** [range(a, b)] *)
Definition range (a b : nat) : list nat := seq a (b - a).

(** [needle in hay], on strings: [needle] occurs as a substring. *)
Fixpoint str_in (needle hay : string) : bool :=
  String.prefix needle hay ||
  match hay with
  | EmptyString => false
  | String _ hay' => str_in needle hay'
  end.

(** [s.lower()], on the ASCII letters. *)
Definition lower_ascii (c : ascii) : ascii :=
  let n := nat_of_ascii c in
  if ((65 <=? n) && (n <=? 90))%nat then ascii_of_nat (n + 32) else c.

Fixpoint lower (s : string) : string :=
  match s with
  | EmptyString => EmptyString
  | String c s' => String (lower_ascii c) (lower s')
  end.

(** [str(n)] for an integer. *)
Definition str_int (n : Z) : string := pretty n.

End Py.
Import Py.

(** ** Moves *)

Inductive file := fa | fb | fc | fd | fe | ff | fg | fh.
Inductive rank := r1 | r2 | r3 | r4 | r5 | r6 | r7 | r8.
Inductive piece_kind := Pawn | Knight | Bishop | Rook | Queen | King.

Record square := Square { sq_file : file; sq_rank : rank }.

(** Modelled from the spec: the Move value of section 3 (the class of the
    chess library, which is not part of the sources): origin square,
    destination square and optional promotion piece; two moves are equal
    iff the three fields are. *)
Record Move := mkMove {
  origin : square;
  destination : square;
  promotion : option piece_kind
}.

Global Instance file_eq_dec : EqDecision file.
Proof. solve_decision. Defined.
Global Instance rank_eq_dec : EqDecision rank.
Proof. solve_decision. Defined.
Global Instance piece_kind_eq_dec : EqDecision piece_kind.
Proof. solve_decision. Defined.
Global Instance square_eq_dec : EqDecision square.
Proof. solve_decision. Defined.
Global Instance Move_eq_dec : EqDecision Move.
Proof. solve_decision. Defined.

Definition file_symbol (f : file) : string :=
  match f with
  | fa => "a" | fb => "b" | fc => "c" | fd => "d"
  | fe => "e" | ff => "f" | fg => "g" | fh => "h"
  end.

Definition rank_symbol (r : rank) : string :=
  match r with
  | r1 => "1" | r2 => "2" | r3 => "3" | r4 => "4"
  | r5 => "5" | r6 => "6" | r7 => "7" | r8 => "8"
  end.

Definition piece_symbol (k : piece_kind) : string :=
  match k with
  | Pawn => "p" | Knight => "n" | Bishop => "b"
  | Rook => "r" | Queen => "q" | King => "k"
  end.

Definition square_name (s : square) : string :=
  file_symbol (sq_file s) +:+ rank_symbol (sq_rank s).

(** Modelled from the spec: the move notation of section 4.2,
    [<file><rank><file><rank>[promotion]]. *)
Definition uci (m : Move) : string :=
  square_name (origin m) +:+ square_name (destination m) +:+
  match promotion m with
  | Some k => piece_symbol k
  | None => ""
  end.

(** What [getNextMove] hands back: a move, or Python's [None]. *)
Definition next_move_t := option Move.

(** [str(x)] for such a value. *)
Definition str_move (x : next_move_t) : string :=
  match x with
  | Some m => uci m
  | None => "None"
  end.

(** ** Boards *)

(** Modelled from the spec: the Game of section 3 and its PositionIndex
    (class [Board] of [Board.py], which is not part of the sources).  A
    board holds the metadata of the game, the notation of the starting
    position and, for each ply, the move played and the notation of the
    position it leads to; the positions visited are therefore one more
    than the plies.  [cursor] is the ply the board is standing at after
    the last replay. *)
Record Board := mkBoard {
  white_player : string;
  black_player : string;
  time_control : string;
  game_result : string;
  start_position : string;
  plies : list (Move * string);
  cursor : nat
}.

Global Instance Board_eq_dec : EqDecision Board.
Proof. solve_decision. Defined.

Definition set_cursor (b : Board) (k : nat) : Board :=
  mkBoard (white_player b) (black_player b) (time_control b) (game_result b)
          (start_position b) (plies b) k.

(** Modelled from the spec: the search of the PositionIndex for the first
    occurrence of a position (section 4.3).  The index of the first
    position equal to [FEN] among [pos] and the positions that [rest]
    leads to, [pos] being the position at ply [k]. *)
Fixpoint first_occurrence (FEN : string) (pos : string)
    (rest : list (Move * string)) (k : nat) : option nat :=
  if String.eqb pos FEN then Some k
  else match rest with
       | [] => None
       | (_, pos') :: rest' => first_occurrence FEN pos' rest' (S k)
       end.

(** Modelled from the spec: [containsPosition] of section 4.3
    ([Board.containsFEN], not part of the sources): true iff [FEN] is the
    notation of one of the positions visited, the starting and the final
    one included.  The replay leaves the board at the first occurrence, or
    at the end of the game when there is none. *)
Definition containsFEN (b : Board) (FEN : string) : bool * Board :=
  match first_occurrence FEN (start_position b) (plies b) 0 with
  | Some k => (true, set_cursor b k)
  | None => (false, set_cursor b (length (plies b)))
  end.

(** Modelled from the spec: [nextMoveAfter] of section 4.3
    ([Board.getNextMove], not part of the sources), called by the source
    without the position, on a board that [containsFEN] has just replayed:
    the move played at the ply the board is standing at, and absence when
    that is the final position. *)
Definition getNextMove (b : Board) : next_move_t :=
  fst <$> plies b !! cursor b.

(** ** [sortMovesAndFrequencies] *)

Section Sort.

Context {M : Type}.

(** The body of the inner loop: compare the counts at [i] and [j] and, when
    the one at [i] is smaller, exchange the counts and then the moves. *)
Definition swap_if_less (i j : nat) (st : list M * list Z)
  : result (list M * list Z) :=
  let '(moves, frequencies) := st in
  fi ← getitem frequencies i;
  fj ← getitem frequencies j;
  if fi <? fj then
    temp ← getitem frequencies i;
    fj' ← getitem frequencies j;
    frequencies ← setitem frequencies i fj';
    frequencies ← setitem frequencies j temp;
    temp ← getitem moves i;
    mj ← getitem moves j;
    moves ← setitem moves i mj;
    moves ← setitem moves j temp;
    Ok (moves, frequencies)
  else Ok (moves, frequencies).

(** One round of the outer loop: [for j in range(i+1, len(frequencies))]. *)
Definition sort_round (i : nat) (st : list M * list Z)
  : result (list M * list Z) :=
  for_each (range (i + 1) (length st.2)) (swap_if_less i) st.

Definition sortMovesAndFrequencies (moves : list M) (frequencies : list Z)
  : result (list M * list Z) :=
  for_each (range 0 (length frequencies)) sort_round (moves, frequencies).

(** *** The same sort on a list of (move, count) pairs

    A round compares the head with each later entry in turn and exchanges
    the two when the head has the smaller count; the round ends with an
    entry of greatest count at the head. *)
Fixpoint round_pairs (x : M * Z) (t : list (M * Z)) : (M * Z) * list (M * Z) :=
  match t with
  | [] => (x, [])
  | y :: t' =>
      if x.2 <? y.2
      then let '(h, r) := round_pairs y t' in (h, x :: r)
      else let '(h, r) := round_pairs x t' in (h, y :: r)
  end.

Fixpoint sort_pairs (n : nat) (l : list (M * Z)) : list (M * Z) :=
  match n, l with
  | S n', x :: t => let '(h, r) := round_pairs x t in h :: sort_pairs n' r
  | _, _ => l
  end.

Definition exchange_sort (l : list (M * Z)) : list (M * Z) :=
  sort_pairs (length l) l.

(** The two parallel lists of a list of pairs. *)
Definition unzip (l : list (M * Z)) : list M * list Z := (l.*1, l.*2).

End Sort.

(** Counts do not increase along the list. *)
Definition descending : list Z → Prop := StronglySorted (λ c c', c' ≤ c).

(** ** Counting a move *)

Section Tally.

Context `{EqDecision K}.

(** The conditional of [findMovesAfterFEN] that records one more game with
    [next_move]: a known move has its count raised by one, a new move is
    appended with count 1. *)
Definition record_move (next_move : K) (st : list K * list Z)
  : result (list K * list Z) :=
  let '(moves, frequencies) := st in
  if list_in next_move moves then
    i ← list_index moves next_move;
    f ← getitem frequencies i;
    frequencies ← setitem frequencies i (f + 1);
    Ok (moves, frequencies)
  else Ok (moves ++ [next_move], frequencies ++ [1]).

(** The same step on a list of (move, count) pairs. *)
Fixpoint bump (k : K) (t : list (K * Z)) : list (K * Z) :=
  match t with
  | [] => [(k, 1)]
  | e :: t' => if decide (e.1 = k) then (e.1, e.2 + 1) :: t' else e :: bump k t'
  end.

(** The table after the moves [ks] have been recorded in turn. *)
Definition tally (ks : list K) (t : list (K * Z)) : list (K * Z) :=
  fold_left (λ t k, bump k t) ks t.

(** The count the table [moves], [frequencies] holds for [k], 0 when [k] is
    not in the table. *)
Definition recorded_count (k : K) (moves : list K) (frequencies : list Z) : Z :=
  match index k moves with
  | Some i => default 0 (frequencies !! i)
  | None => 0
  end.

(** [a] is listed ahead of [b]. *)
Definition ranked_before (a b : K) (moves : list K) : Prop :=
  ∃ i j, index a moves = Some i ∧ index b moves = Some j ∧ (i < j)%nat.

End Tally.

(** The first game with next move [a] comes before the first with [b]. *)
Definition first_seen_before `{EqDecision K} (a b : K) (ks : list K) : Prop :=
  ranked_before a b ks.

(** ** The profile *)

(** The list object that the attribute [games] is bound to: the very list
    of [all_games] (after [self.games = self.all_games]) or a list of its
    own (after [self.games = []]). *)
Inductive games_binding :=
| SameAsAllGames
| OwnList (l : list Board).

Section Profile.

(** Decoded JSON values, as the fetch and cache layer hands them over. *)
Context {J : Type}.

(** [Board(game['pgn'])]: the board of an archived game record. *)
Variable new_Board : J → Board.

Record Profile := mkProfile {
  username : string;
  info : J;
  stats : J;
  current_games_data : list J;
  games_data : list J;
  all_games : list Board;
  current_games : list Board;
  games_bound : games_binding
}.

(** [self.games] *)
Definition games (p : Profile) : list Board :=
  match games_bound p with
  | SameAsAllGames => all_games p
  | OwnList l => l
  end.

(** [self.games = ...] *)
Definition bind_games (p : Profile) (b : games_binding) : Profile :=
  mkProfile (username p) (info p) (stats p) (current_games_data p)
            (games_data p) (all_games p) (current_games p) b.

(** [self.games.append(game)]: the list object grows, under whichever
    attributes it is bound to. *)
Definition games_append (p : Profile) (game : Board) : Profile :=
  match games_bound p with
  | OwnList l => bind_games p (OwnList (l ++ [game]))
  | SameAsAllGames =>
      mkProfile (username p) (info p) (stats p) (current_games_data p)
                (games_data p) (all_games p ++ [game]) (current_games p)
                SameAsAllGames
  end.

(** [Profile.__init__], once the profile, the statistics and the game
    records have been loaded or fetched.  The loop that fills
    [current_games] ranges over [self.current_games], which has just been
    set to the empty list, so its body never runs. *)
Definition Profile_init (username : string) (info stats : J)
    (current_games_data games_data : list J) : Profile :=
  let all_games :=
    fold_left (fun acc game => acc ++ [new_Board game]) games_data [] in
  let current_games : list Board := [] in
  mkProfile username info stats current_games_data games_data
            all_games current_games SameAsAllGames.

(** [for game in self.all_games: if cond(game): self.games.append(game)] *)
Definition append_games_where (cond : Board → bool) (p : Profile) : Profile :=
  fold_left (fun p game => if cond game then games_append p game else p)
            (all_games p) p.

Definition filterGameType (p : Profile) (type : string) : Profile :=
  let p := bind_games p (OwnList []) in
  if str_in "0" type then
    append_games_where (fun game => (time_control game =? type)%string) p
  else
    let type := lower type in
    if (type =? "all")%string then bind_games p SameAsAllGames
    else if (type =? "rapid")%string then
      append_games_where (fun game =>
        (time_control game =? "600")%string
        || (time_control game =? "900+10")%string
        || (time_control game =? "1800")%string) p
    else if (type =? "bullet")%string then
      append_games_where (fun game =>
        (time_control game =? "60")%string
        || (time_control game =? "60+1")%string
        || (time_control game =? "120+0")%string) p
    else if (type =? "blitz")%string then
      append_games_where (fun game =>
        (time_control game =? "180")%string
        || (time_control game =? "180+2")%string
        || (time_control game =? "300")%string) p
    else if (type =? "daily")%string then
      append_games_where (fun game =>
        (time_control game =? "86400")%string) p
    else p.

(** The profiles a program can hold: a constructed one, filtered any number
    of times. *)
Inductive reachable : Profile → Prop :=
| reachable_init u i s cgd gd : reachable (Profile_init u i s cgd gd)
| reachable_filter p type : reachable p → reachable (filterGameType p type).

(** ** The queries *)

(** The boards come back as [containsFEN] has left them.  The profile is
    not returned: every query replays a board before it reads it, so the
    place a board was left at by an earlier query is never read. *)
Definition findGamesWithFEN (p : Profile) (FEN : string) : list Board :=
  fold_left (fun games board =>
               let '(found, board) := containsFEN board FEN in
               if found then games ++ [board] else games)
            (games p) [].

(** [(game.white_player == self.username) == (white == True)] *)
Definition color_matches (p : Profile) (game : Board) (white : bool) : bool :=
  Bool.eqb (white_player game =? username p)%string (Bool.eqb white true).

Definition findGamesWithFENandColor (p : Profile) (FEN : string) (white : bool)
  : list Board :=
  fold_left (fun games board =>
               let '(found, board) := containsFEN board FEN in
               if found && color_matches p board white
               then games ++ [board] else games)
            (games p) [].

(** The body of the loop of [findMovesAfterFEN] over the games found. *)
Definition count_next_move (p : Profile) (white : bool) (game : Board)
    (st : list next_move_t * list Z) : result (list next_move_t * list Z) :=
  if color_matches p game white then
    let next_move := getNextMove game in
    record_move next_move st
  else Ok st.

(** The table of [findMovesAfterFEN] when its loop ends, before the sort. *)
Definition frequency_table (p : Profile) (FEN : string) (white : bool)
  : result (list next_move_t * list Z) :=
  let games := findGamesWithFEN p FEN in
  for_each games (count_next_move p white) ([], []).

Definition findMovesAfterFEN (p : Profile) (FEN : string) (white : bool)
  : result (list next_move_t * list Z) :=
  '(moves, frequencies) ← frequency_table p FEN white;
  sortMovesAndFrequencies moves frequencies.

Definition newline : string := String "010"%char "".

(** One line of the table. *)
Definition table_line (m : next_move_t) (f : Z) : string :=
  (str_move m +:+ ": " +:+ str_int f) +:+ newline.

(** The loop of [moveTable] over [range(len(moves))]. *)
Definition table_lines (moves : list next_move_t) (frequencies : list Z)
  : result string :=
  for_each (range 0 (length moves))
    (fun i s =>
       m ← getitem moves i;
       f ← getitem frequencies i;
       Ok (s +:+ table_line m f))
    "".

Definition moveTable (p : Profile) (FEN : string) (white : bool)
  : result string :=
  '(moves, frequencies) ← findMovesAfterFEN p FEN white;
  table_lines moves frequencies.

Definition mostCommonMove (p : Profile) (FEN : string) (white : bool)
  : result next_move_t :=
  '(moves, _) ← findMovesAfterFEN p FEN white;
  getitem moves 0.

(** *** The queries in the words of the specification *)

(** Section 4.3, [containsPosition]. *)
Definition containsPosition (game : Board) (target : string) : bool :=
  (containsFEN game target).1.

(** Section 4.3, [nextMoveAfter]. *)
Definition nextMoveAfter (game : Board) (target : string) : next_move_t :=
  getNextMove (containsFEN game target).2.

(** The player has the selected colour in a game: the username is the
    name of White when White is selected, the name of Black when Black
    is. *)
Definition has_color (p : Profile) (game : Board) (white : bool) : bool :=
  if white then (white_player game =? username p)%string
  else (black_player game =? username p)%string.

(** A game that the queries count: it contains the position, and the name
    of its White player is the username when White is selected and is
    another name when Black is selected.  The name of Black plays no
    part. *)
Definition qualifies (p : Profile) (FEN : string) (white : bool)
    (game : Board) : bool :=
  containsPosition game FEN
  && (if white then (white_player game =? username p)%string
      else negb (white_player game =? username p)%string).

(** The next moves of the qualifying games, in the order of the corpus. *)
Definition next_moves (p : Profile) (FEN : string) (white : bool)
  : list next_move_t :=
  (λ game, nextMoveAfter game FEN) <$> filter (qualifies p FEN white) (games p).

(** The sorted table, as a list of pairs. *)
Definition sorted_table (p : Profile) (FEN : string) (white : bool)
  : list (next_move_t * Z) :=
  exchange_sort (tally (next_moves p FEN white) []).

(** The lines of a table, one after the other. *)
Fixpoint table_text (t : list (next_move_t * Z)) : string :=
  match t with
  | [] => ""
  | e :: t' => table_line e.1 e.2 +:+ table_text t'
  end.

End Profile.

(** ** Selectors *)

Definition symbolic_classes : list string :=
  ["all"; "rapid"; "bullet"; "blitz"; "daily"].

(** The time controls of a class, as [filterGameType] enumerates them. *)
Definition class_tokens (name : string) : option (list string) :=
  if (name =? "rapid")%string then Some ["600"; "900+10"; "1800"]
  else if (name =? "bullet")%string then Some ["60"; "60+1"; "120+0"]
  else if (name =? "blitz")%string then Some ["180"; "180+2"; "300"]
  else if (name =? "daily")%string then Some ["86400"]
  else None.

(** The games a selector denotes in the words of the specification: every
    game for [all], the games of the class for a class name, and for any
    other selector, a literal token, the games with that time control. *)
Definition denoted_by (selector : string) (game : Board) : bool :=
  if (selector =? "all")%string then true
  else match class_tokens selector with
       | Some tokens => list_in (time_control game) tokens
       | None => (time_control game =? selector)%string
       end.

(** The games [filterGameType] selects: a selector with the character 0 in
    it is a literal token; any other selector is lowercased and read as a
    class name, and selects nothing when it is not one. *)
Definition selected_by (type : string) (game : Board) : bool :=
  if str_in "0" type then (time_control game =? type)%string
  else if (lower type =? "all")%string then true
  else match class_tokens (lower type) with
       | Some tokens => list_in (time_control game) tokens
       | None => false
       end.

(** ** Lists of any lengths *)

Section Frame.

Context {M : Type}.

(** The entries of [l] followed by moves and counts without partners. *)
Definition framed (l : list (M * Z)) (extra : list M) (rest : list Z)
  : list M * list Z :=
  (l.*1 ++ extra, l.*2 ++ rest).

(** The counts [rest] are in their final places behind the entries [l]:
    they are in descending order and none exceeds a count of [l]. *)
Definition settled (l : list (M * Z)) (rest : list Z) : Prop :=
  descending rest ∧ Forall (λ e, Forall (λ b, b ≤ e.2) rest) l.

(** What the loops keep: the moves and the counts that have a move are
    permuted among themselves, the counts without a move stay. *)
Definition kept (moves : list M) (frequencies : list Z)
    (st : list M * list Z) : Prop :=
  st.1 ≡ₚ moves ∧ length st.2 = length frequencies ∧
  take (length moves) st.2 ≡ₚ take (length moves) frequencies ∧
  drop (length moves) st.2 = drop (length moves) frequencies.

(** Every count at a position that [moves] does not have is at most the
    counts before it. *)
Definition counts_in_place (moves : list M) (frequencies : list Z) : Prop :=
  ∀ i j a b, (i < j)%nat → (length moves ≤ j)%nat →
             frequencies !! i = Some a → frequencies !! j = Some b → b ≤ a.

End Frame.

(** The sum of the counts. *)
Definition total (frequencies : list Z) : Z := foldr Z.add 0 frequencies.

(** ** The statistics and the cache *)

Module Api.

Section Values.

(** Python's floats. *)
Context {F : Type}.

(** A decoded JSON document, as [json.loads] returns it: [None], a bool,
    an int, a float, a str, a list, or a dict with its keys in order. *)
#[warnings="-register-all"]
Inductive json :=
| JNull
| JBool (b : bool)
| JInt (n : Z)
| JFloat (x : F)
| JStr (s : string)
| JList (l : list json)
| JDict (d : list (string * json)).

(** The exceptions: those that the statements of the source raise
    themselves, and, by the name of its class, one that a call of a
    library ([requests], [json], [os], a file) raises. *)
Inductive error :=
| KeyError (key : string)
| TypeError
| ZeroDivisionError
| OverflowError
| AttributeError (name : string)
| LibraryError (class : string).

Inductive outcome (A : Type) : Type :=
| Returns (a : A)
| Raises (e : error).
Global Arguments Returns {A} a.
Global Arguments Raises {A} e.

Global Instance outcome_ret : MRet outcome := λ A a, Returns a.
Global Instance outcome_bind : MBind outcome := λ A B f m,
  match m with
  | Returns a => f a
  | Raises e => Raises e
  end.

(** *** Dicts *)

Fixpoint dict_get (k : string) (d : list (string * json)) : option json :=
  match d with
  | [] => None
  | (k', v) :: d' => if (k' =? k)%string then Some v else dict_get k d'
  end.

(** [d[k] = v] on the items of a dict: the value of a key that is there is
    replaced in place, a new key goes to the end. *)
Fixpoint dict_set (k : string) (v : json) (d : list (string * json))
  : list (string * json) :=
  match d with
  | [] => [(k, v)]
  | (k', v') :: d' =>
      if (k' =? k)%string then (k', v) :: d' else (k', v') :: dict_set k v d'
  end.

(** [x[k]] for a str [k]. *)
Definition py_getitem (x : json) (k : string) : outcome json :=
  match x with
  | JDict d =>
      match dict_get k d with
      | Some v => Returns v
      | None => Raises (KeyError k)
      end
  | _ => Raises TypeError
  end.

(** [x[k] = v] for a str [k]. *)
Definition py_setitem (x : json) (k : string) (v : json) : outcome json :=
  match x with
  | JDict d => Returns (JDict (dict_set k v d))
  | _ => Raises TypeError
  end.

(** [for y in x]: the elements of a list, the keys of a dict, the
    characters of a str. *)
Definition py_iter (x : json) : outcome (list json) :=
  match x with
  | JList l => Returns l
  | JDict d => Returns (JStr <$> d.*1)
  | JStr s => Returns ((λ c, JStr (String c "")) <$> list_ascii_of_string s)
  | _ => Raises TypeError
  end.

(** *** Numbers *)

Inductive number :=
| NInt (n : Z)
| NFloat (x : F).

(** A bool is an int. *)
Definition as_number (v : json) : option number :=
  match v with
  | JBool b => Some (NInt (if b then 1 else 0))
  | JInt n => Some (NInt n)
  | JFloat x => Some (NFloat x)
  | _ => None
  end.

(** The arithmetic of floats: the conversion of an int, which overflows
    for the largest ones, the division of two ints by [/], which overflows
    likewise, sum, product and quotient, [round(x, ndigits)], and
    [x == 0]. *)
Class FloatOps := {
  float_of_int : Z → option F;
  int_true_div : Z → Z → option F;
  float_add : F → F → F;
  float_mul : F → F → F;
  float_div : F → F → F;
  float_round : F → Z → F;
  float_is_zero : F → bool
}.

Context {float_ops : FloatOps}.

Definition to_float (x : number) : outcome F :=
  match x with
  | NFloat x => Returns x
  | NInt n =>
      match float_of_int n with
      | Some x => Returns x
      | None => Raises OverflowError
      end
  end.

(** [a + b] *)
Definition py_add (a b : json) : outcome json :=
  match a, b with
  | JStr s, JStr t => Returns (JStr (s +:+ t))
  | JList l, JList k => Returns (JList (l ++ k))
  | _, _ =>
      match as_number a, as_number b with
      | Some (NInt m), Some (NInt n) => Returns (JInt (m + n))
      | Some x, Some y =>
          x ← to_float x; y ← to_float y; Returns (JFloat (float_add x y))
      | _, _ => Raises TypeError
      end
  end.

(** [v == 0] *)
Definition py_is_zero (v : json) : bool :=
  match as_number v with
  | Some (NInt n) => (n =? 0)%Z
  | Some (NFloat x) => float_is_zero x
  | None => false
  end.

(** [a / b], a float. *)
Definition py_truediv (a b : json) : outcome F :=
  match as_number a, as_number b with
  | Some (NInt m), Some (NInt n) =>
      if (n =? 0)%Z then Raises ZeroDivisionError
      else match int_true_div m n with
           | Some q => Returns q
           | None => Raises OverflowError
           end
  | Some x, Some y =>
      x ← to_float x; y ← to_float y;
      if float_is_zero y then Raises ZeroDivisionError
      else Returns (float_div x y)
  | _, _ => Raises TypeError
  end.

(** [Profile.calc_pct] *)
Definition calc_pct (numerator denominator : json) : outcome json :=
  if py_is_zero denominator then Returns (JInt 0)
  else
    q ← py_truediv numerator denominator;
    hundred ← to_float (NInt 100);
    Returns (JFloat (float_round (float_mul q hundred) 2)).

(** *** [Profile.retrieve_player_stats], after the response has arrived *)

(** [d[a][b]] and [d[a][b][c]] *)
Definition get2 (d : json) (a b : string) : outcome json :=
  x ← py_getitem d a; py_getitem x b.

Definition get3 (d : json) (a b c : string) : outcome json :=
  x ← get2 d a b; py_getitem x c.

(** [d[a][b] = v]: the dict [d[a]] is changed in place. *)
Definition assign2 (d : json) (a b : string) (v : json) : outcome json :=
  inner ← py_getitem d a;
  inner ← py_setitem inner b v;
  py_setitem d a inner.

(** [stats_dict[name][key] = result[category][group][field]] *)
Definition copy_field (result : json) (category group field name key : string)
    (stats_dict : json) : outcome json :=
  v ← get3 result category group field;
  assign2 stats_dict name key v.

(** [stats_dict[name]["played"] = stats_dict[name]["won"]
      + stats_dict[name]["lost"] + stats_dict[name]["drawn"]] *)
Definition sum_played (name : string) (stats_dict : json) : outcome json :=
  won ← get2 stats_dict name "won";
  lost ← get2 stats_dict name "lost";
  s ← py_add won lost;
  drawn ← get2 stats_dict name "drawn";
  played ← py_add s drawn;
  assign2 stats_dict name "played" played.

(** [stats_dict[name][key] = self.calc_pct(stats_dict[name][part],
      stats_dict[name]["played"])] *)
Definition set_pct (name key part : string) (stats_dict : json) : outcome json :=
  n ← get2 stats_dict name part;
  played ← get2 stats_dict name "played";
  pct ← calc_pct n played;
  assign2 stats_dict name key pct.

(** The statements that fill [stats_dict[name]] from [result[category]].
    The source writes them out for each category; for bullet it stops
    after "pct-won", which [with_lost_drawn] tells. *)
Definition category_stats (result : json) (name category : string)
    (with_lost_drawn : bool) (stats_dict : json) : outcome json :=
  stats_dict ← copy_field result category "last" "rating" name "rating" stats_dict;
  stats_dict ← copy_field result category "record" "win" name "won" stats_dict;
  stats_dict ← copy_field result category "record" "loss" name "lost" stats_dict;
  stats_dict ← copy_field result category "record" "draw" name "drawn" stats_dict;
  stats_dict ← sum_played name stats_dict;
  stats_dict ← set_pct name "pct-won" "won" stats_dict;
  if with_lost_drawn then
    stats_dict ← set_pct name "pct-lost" "lost" stats_dict;
    set_pct name "pct-drawn" "drawn" stats_dict
  else Returns stats_dict.

(** The body of [retrieve_player_stats] from the response [result] on. *)
Definition player_stats (result : json) : outcome json :=
  let stats_dict := JDict [] in
  stats_dict ← py_setitem stats_dict "daily" (JDict []);
  stats_dict ← py_setitem stats_dict "rapid" (JDict []);
  stats_dict ← py_setitem stats_dict "bullet" (JDict []);
  stats_dict ← py_setitem stats_dict "blitz" (JDict []);
  stats_dict ← category_stats result "daily" "chess_daily" true stats_dict;
  stats_dict ← category_stats result "rapid" "chess_rapid" true stats_dict;
  stats_dict ← category_stats result "bullet" "chess_bullet" false stats_dict;
  category_stats result "blitz" "chess_blitz" true stats_dict.

(** The items of [stats_dict[name]] when the statements for one category
    are through, built at once. *)
Definition category_items (result : json) (category : string)
    (with_lost_drawn : bool) : outcome (list (string * json)) :=
  rating ← get3 result category "last" "rating";
  won ← get3 result category "record" "win";
  lost ← get3 result category "record" "loss";
  drawn ← get3 result category "record" "draw";
  s ← py_add won lost;
  played ← py_add s drawn;
  pct_won ← calc_pct won played;
  if with_lost_drawn then
    pct_lost ← calc_pct lost played;
    pct_drawn ← calc_pct drawn played;
    Returns [("rating", rating); ("won", won); ("lost", lost); ("drawn", drawn);
          ("played", played); ("pct-won", pct_won); ("pct-lost", pct_lost);
          ("pct-drawn", pct_drawn)]
  else
    Returns [("rating", rating); ("won", won); ("lost", lost); ("drawn", drawn);
          ("played", played); ("pct-won", pct_won)].

(** The keys of [stats_dict] with the categories of the response. *)
Definition categories : list (string * string) :=
  [("daily", "chess_daily"); ("rapid", "chess_rapid");
   ("bullet", "chess_bullet"); ("blitz", "chess_blitz")].

(** Python's truth value of a document. *)
Definition truthy (v : json) : bool :=
  match v with
  | JNull => false
  | JBool b => b
  | JInt n => negb (n =? 0)%Z
  | JFloat x => negb (float_is_zero x)
  | JStr s => negb (s =? "")%string
  | JList l => match l with [] => false | _ => true end
  | JDict d => match d with [] => false | _ => true end
  end.

(** *** The network and the cache *)

(** Open files, and the world outside the program. *)
Context {File World : Type}.

(** The calls of the libraries: [os.path.exists], [os.mkdir], [open],
    [f.write], [f.readline], [f.close], [print],
    [requests.get(url).content.decode("utf-8")], [json.loads] and
    [json.dumps].  A call returns or raises, and leaves the world changed
    in both cases. *)
Class System := {
  os_path_exists : string → World → outcome bool * World;
  os_mkdir : string → World → outcome unit * World;
  open_file : string → string → World → outcome File * World;
  file_write : File → string → World → outcome unit * World;
  file_readline : File → World → outcome string * World;
  file_close : File → World → outcome unit * World;
  builtin_print : string → World → outcome unit * World;
  requests_get_content : json → World → outcome string * World;
  json_loads : string → outcome json;
  json_dumps : json → string
}.

Context {system : System}.

(** The attributes that [__init__] sets before it builds the boards;
    [None] for one that is not set yet. *)
Record Self := mkSelf {
  self_username : string;
  self_info : option json;
  self_stats : option json;
  self_current_games_data : option json;
  self_games_data : option json
}.

(** A method: it returns or raises, and leaves the object and the world
    changed in both cases. *)
Definition action (A : Type) : Type :=
  Self * World → outcome A * (Self * World).

Global Instance action_ret : MRet action := λ A a s, (Returns a, s).
Global Instance action_bind : MBind action := λ A B f m s,
  match m s with
  | (Returns a, s') => f a s'
  | (Raises e, s') => (Raises e, s')
  end.

(** A call that does not touch the object. *)
Definition call {A} (m : World → outcome A * World) : action A :=
  λ s, let '(r, w) := m s.2 in (r, (s.1, w)).

(** A computation without effects. *)
Definition pure {A} (o : outcome A) : action A := λ s, (o, s).

(** [self.name], and [self.name = v]. *)
Definition attribute (name : string) (field : Self → option json) : action json :=
  λ s, match field s.1 with
       | Some v => (Returns v, s)
       | None => (Raises (AttributeError name), s)
       end.

Definition username : action string := λ s, (Returns (self_username s.1), s).

Definition set_info (v : json) : action unit :=
  λ s, (Returns tt, (mkSelf (self_username s.1) (Some v) (self_stats s.1)
                         (self_current_games_data s.1) (self_games_data s.1),
                  s.2)).

Definition set_stats (v : json) : action unit :=
  λ s, (Returns tt, (mkSelf (self_username s.1) (self_info s.1) (Some v)
                         (self_current_games_data s.1) (self_games_data s.1),
                  s.2)).

Definition set_current_games_data (v : json) : action unit :=
  λ s, (Returns tt, (mkSelf (self_username s.1) (self_info s.1) (self_stats s.1)
                         (Some v) (self_games_data s.1),
                  s.2)).

Definition set_games_data (v : json) : action unit :=
  λ s, (Returns tt, (mkSelf (self_username s.1) (self_info s.1) (self_stats s.1)
                         (self_current_games_data s.1) (Some v),
                  s.2)).

(** [for x in xs: body], the list under construction threaded through. *)
Fixpoint for_action {A S} (xs : list A) (body : A → S → action S) (acc : S)
  : action S :=
  match xs with
  | [] => mret acc
  | x :: xs' => acc ← body x acc; for_action xs' body acc
  end.

Definition import_json_from_url (url : json) : action json :=
  content ← call (requests_get_content url);
  content_json ← pure (json_loads content);
  mret content_json.

Definition api : string := "https://api.chess.com/pub/player/".

Definition retrieve_player_profile : action json :=
  u ← username;
  let url := api +:+ u in
  result ← import_json_from_url (JStr url);
  mret result.

Definition retrieve_player_stats : action json :=
  u ← username;
  let url := api +:+ u +:+ "/stats" in
  result ← import_json_from_url (JStr url);
  pure (player_stats result).

Definition retrieve_current_games : action json :=
  let all_games := [] in
  u ← username;
  let url := api +:+ u +:+ "/games" in
  result ← import_json_from_url (JStr url);
  games ← pure (py_getitem result "games");
  games ← pure (py_iter games);
  all_games ← for_action games (λ game all_games, mret (all_games ++ [game]))
                         all_games;
  mret (JList all_games).

Definition retrieve_player_games : action json :=
  let all_games := [] in
  u ← username;
  let url := api +:+ u +:+ "/games/archives" in
  result ← import_json_from_url (JStr url);
  archives ← pure (py_getitem result "archives");
  archives ← pure (py_iter archives);
  all_games ← for_action archives (λ month all_games,
      cur ← import_json_from_url month;
      games ← pure (py_getitem cur "games");
      games ← pure (py_iter games);
      for_action games (λ game all_games, mret (all_games ++ [game]))
                 all_games)
    all_games;
  mret (JList all_games).

Definition cache_file (u : string) : string := "cache/" +:+ u +:+ ".json".

Definition save_info : action unit :=
  there ← call (os_path_exists "cache");
  _ ← (if negb there then call (os_mkdir "cache") else mret tt);
  u ← username;
  f ← call (open_file (cache_file u) "w");
  info ← attribute "info" self_info;
  _ ← call (file_write f (json_dumps info +:+ newline));
  stats ← attribute "stats" self_stats;
  _ ← call (file_write f (json_dumps stats +:+ newline));
  current_games_data ← attribute "current_games_data" self_current_games_data;
  _ ← call (file_write f (json_dumps current_games_data +:+ newline));
  games_data ← attribute "games_data" self_games_data;
  _ ← call (file_write f (json_dumps games_data +:+ newline));
  call (file_close f).

(** What [load_info] returns is [False] or, when it runs to its end without
    a [return], [None]. *)
Definition load_info : action json :=
  u ← username;
  there ← call (os_path_exists (cache_file u));
  if negb there then
    _ ← call (builtin_print ("Attempted to load info from cache for " +:+ u
                     +:+ ", but no cache file exists.  Scraping from API instead."));
    mret (JBool false)
  else
    f ← call (open_file (cache_file u) "r");
    line ← call (file_readline f);
    v ← pure (json_loads line);
    _ ← set_info v;
    line ← call (file_readline f);
    v ← pure (json_loads line);
    _ ← set_stats v;
    line ← call (file_readline f);
    v ← pure (json_loads line);
    _ ← set_current_games_data v;
    line ← call (file_readline f);
    v ← pure (json_loads line);
    _ ← set_games_data v;
    _ ← call (file_close f);
    mret JNull.

(** [Profile.__init__] from the test of [import_save] to [save_info]; the
    rest of the constructor is [Profile_init]. *)
Definition Profile_init_data (import_save : bool) : action unit :=
  loaded ← (if import_save return action bool
            then r ← load_info; mret (truthy r)
            else mret false);
  if (loaded : bool) return action unit then mret tt
  else
    info ← retrieve_player_profile;
    _ ← set_info info;
    stats ← retrieve_player_stats;
    _ ← set_stats stats;
    current_games_data ← retrieve_current_games;
    _ ← set_current_games_data current_games_data;
    games_data ← retrieve_player_games;
    _ ← set_games_data games_data;
    save_info.

(** The games of one monthly archive, and of the archives in turn. *)
Definition month_games (month : json) : action (list json) :=
  cur ← import_json_from_url month;
  games ← pure (py_getitem cur "games");
  pure (py_iter games).

Fixpoint months_games (months : list json) : action (list (list json)) :=
  match months with
  | [] => mret []
  | month :: months' =>
      games ← month_games month;
      rest ← months_games months';
      mret (games :: rest)
  end.

End Values.

Global Arguments json : clear implicits.
Global Arguments number : clear implicits.
Global Arguments FloatOps : clear implicits.
Global Arguments System : clear implicits.
Global Arguments Self : clear implicits.
Global Arguments action : clear implicits.

End Api.

(** ** Sample games *)

Module Sample.

(** A decoded record: nothing, or an archived game. *)
Inductive record := Null | Game (b : Board).

Definition board_of (r : record) : Board :=
  match r with
  | Game b => b
  | Null => mkBoard "" "" "" "" "" [] 0
  end.

Definition e2e4 : Move := mkMove (Square fe r2) (Square fe r4) None.
Definition e7e5 : Move := mkMove (Square fe r7) (Square fe r5) None.
Definition g1f3 : Move := mkMove (Square fg r1) (Square ff r3) None.
Definition d2d4 : Move := mkMove (Square fd r2) (Square fd r4) None.
Definition d1h5 : Move := mkMove (Square fd r1) (Square fh r5) None.

Definition start_fen : string :=
  "rnbqkbnr/pppppppp/8/8/8/8/PPPPPPPP/RNBQKBNR w KQkq - 0 1".
Definition fen_g1f3 : string :=
  "rnbqkbnr/pppppppp/8/8/8/5N2/PPPPPPPP/RNBQKB1R b KQkq - 1 1".
Definition fen_d2d4 : string :=
  "rnbqkbnr/pppppppp/8/8/3P4/8/PPPPPPPP/RNBQKBNR b KQkq - 0 1".
Definition fen_e4 : string :=
  "rnbqkbnr/pppppppp/8/8/4P3/8/PPPP1PPP/RNBQKBNR b KQkq - 0 1".
(** The position after 1. e4 e5. *)
Definition fen_e4_e5 : string :=
  "rnbqkbnr/pppp1ppp/8/4p3/4P3/8/PPPP1PPP/RNBQKBNR w KQkq - 0 2".
Definition fen_e4_e5_g1f3 : string :=
  "rnbqkbnr/pppp1ppp/8/4p3/4P3/5N2/PPPP1PPP/RNBQKB1R b KQkq - 1 2".
Definition fen_e4_e5_d2d4 : string :=
  "rnbqkbnr/pppp1ppp/8/4p3/3PP3/8/PPP2PPP/RNBQKBNR b KQkq - 0 2".
Definition fen_e4_e5_d1h5 : string :=
  "rnbqkbnr/pppp1ppp/8/4p2Q/4P3/8/PPPP1PPP/RNB1KBNR b KQkq - 1 2".

Definition me : string := "aronfrish".

(** A game of the player as White, from the usual starting position. *)
Definition game (tc : string) (moves : list (Move * string)) : record :=
  Game (mkBoard me "opponent" tc "1-0" start_fen moves 0).

Definition opens_g1f3 : record := game "600" [(g1f3, fen_g1f3)].
Definition opens_d2d4 : record := game "180" [(d2d4, fen_d2d4)].

(** 1. e4 e5 and then [second], if any. *)
Definition open_game (tc : string) (second : list (Move * string)) : record :=
  game tc ([(e2e4, fen_e4); (e7e5, fen_e4_e5)] ++ second).

Definition plays_g1f3 : record := open_game "600" [(g1f3, fen_e4_e5_g1f3)].
Definition plays_d2d4 : record := open_game "180" [(d2d4, fen_e4_e5_d2d4)].
Definition plays_d1h5 : record := open_game "60" [(d1h5, fen_e4_e5_d1h5)].
(** A game that ends after 1. e4 e5. *)
Definition abandoned : record := open_game "600" [].
(** A game at 15 seconds with 5 seconds of increment. *)
Definition quick : record := game "15+5" [(g1f3, fen_g1f3)].

Definition profile_of (gd : list record) : Profile :=
  Profile_init board_of me Null Null [] gd.

(** Three games of the player as White: g1f3, g1f3, d2d4. *)
Definition three_games : Profile :=
  profile_of [opens_g1f3; opens_g1f3; opens_d2d4].

(** After 1. e4 e5: g1f3, d2d4, d1h5, d1h5. *)
Definition four_games : Profile :=
  profile_of [plays_g1f3; plays_d2d4; plays_d1h5; plays_d1h5].

(** After 1. e4 e5: d1h5, d1h5, g1f3, d2d4. *)
Definition four_games_sorted : Profile :=
  profile_of [plays_d1h5; plays_d1h5; plays_g1f3; plays_d2d4].

(** A game that ends after 1. e4 e5, and one that goes on with g1f3. *)
Definition two_games : Profile := profile_of [abandoned; plays_g1f3].

(** The corpus of the docstring of [moveTable]: 158, 26 and 27 games. *)
Definition docstring_games : Profile :=
  profile_of (replicate 158 plays_g1f3 ++ replicate 26 plays_d2d4
              ++ replicate 27 plays_d1h5).

Definition quick_games : Profile := profile_of [quick].

(** A game of the player as White under the name as chess.com writes it,
    in the archive of the profile for the name in lower case. *)
Definition capitalised : record :=
  Game (mkBoard "AronFrish" "opponent" "600" "1-0" start_fen
                [(g1f3, fen_g1f3)] 0).

Definition capitalised_games : Profile := profile_of [capitalised].

(** After 1. e4 e5: g1f3 once, and two games that end there. *)
Definition mostly_abandoned : Profile :=
  profile_of [plays_g1f3; abandoned; abandoned].

End Sample.

(** ** A sample response *)

Module SampleStats.

Import Api.

(** Numbers with four decimal places, as multiples of 1/10000, in the
    place of floats: enough to run [calc_pct] on small records. *)
Definition fixed_point : FloatOps Z := {|
  float_of_int n := Some (n * 10000);
  int_true_div m n := Some (m * 10000 / n);
  float_add x y := x + y;
  float_mul x y := x * y / 10000;
  float_div x y := x * 10000 / y;
  float_round x ndigits :=
    let unit := 10 ^ (4 - ndigits) in (2 * x + unit) / (2 * unit) * unit;
  float_is_zero x := x =? 0
|}.

(** One category of the response of [/stats]. *)
Definition category (rating win loss draw : Z) : json Z :=
  JDict [("last", JDict [("rating", JInt rating); ("date", JInt 1700000000)]);
         ("record", JDict [("win", JInt win); ("loss", JInt loss);
                           ("draw", JInt draw)])].

Definition response : json Z :=
  JDict [("chess_daily", category 1200 0 0 0);
         ("chess_rapid", category 1510 2 2 1);
         ("chess_bullet", category 1100 1 2 0);
         ("chess_blitz", category 1340 3 0 0);
         ("fide", JInt 0)].

(** The response for a player without daily games. *)
Definition response_without_daily : json Z :=
  JDict [("chess_rapid", category 1510 2 2 1);
         ("chess_bullet", category 1100 1 2 0);
         ("chess_blitz", category 1340 3 0 0)].

(** What [retrieve_player_stats] makes of [response]: 40.0 is 400000
    ten-thousandths. *)
Definition stats : json Z :=
  JDict [("daily", JDict [("rating", JInt 1200); ("won", JInt 0);
                          ("lost", JInt 0); ("drawn", JInt 0);
                          ("played", JInt 0); ("pct-won", JInt 0);
                          ("pct-lost", JInt 0); ("pct-drawn", JInt 0)]);
         ("rapid", JDict [("rating", JInt 1510); ("won", JInt 2);
                          ("lost", JInt 2); ("drawn", JInt 1);
                          ("played", JInt 5); ("pct-won", JFloat 400000);
                          ("pct-lost", JFloat 400000);
                          ("pct-drawn", JFloat 200000)]);
         ("bullet", JDict [("rating", JInt 1100); ("won", JInt 1);
                           ("lost", JInt 2); ("drawn", JInt 0);
                           ("played", JInt 3); ("pct-won", JFloat 333300)]);
         ("blitz", JDict [("rating", JInt 1340); ("won", JInt 3);
                          ("lost", JInt 0); ("drawn", JInt 0);
                          ("played", JInt 3); ("pct-won", JFloat 1000000);
                          ("pct-lost", JFloat 0); ("pct-drawn", JFloat 0)])].

End SampleStats.

(** * Properties *)

(** ** The sort *)

(** The example of the docstring. *)
Example sort_docstring :
  sortMovesAndFrequencies ["g1f3"; "d2d4"; "d1h5"] [158; 26; 27]
  = Ok (["g1f3"; "d1h5"; "d2d4"], [158; 27; 26]).
Proof. reflexivity. Qed.

(** A list of moves shorter than the list of counts: the exchange of the
    moves runs past its end. *)
Example sort_short_moves :
  sortMovesAndFrequencies ["a"] [1; 2] = Raise IndexError.
Proof. reflexivity. Qed.

(** Equal counts do not keep their order. *)
Example sort_not_stable :
  sortMovesAndFrequencies ["a"; "b"; "c"] [1; 1; 2]
  = Ok (["c"; "b"; "a"], [2; 1; 1]).
Proof. reflexivity. Qed.

Section SortFacts.
Context {M : Type}.

Lemma getitem_at {A} (pre : list A) x post i :
  i = length pre → getitem (pre ++ x :: post) i = Ok x.
Proof. intros ->. unfold getitem. by rewrite list_lookup_middle. Qed.

Lemma getitem_beyond {A} (pre : list A) x mid y post j :
  j = (length pre + 1 + length mid)%nat →
  getitem (pre ++ x :: mid ++ y :: post) j = Ok y.
Proof.
  intros ->. replace (pre ++ x :: mid ++ y :: post) with ((pre ++ x :: mid) ++ y :: post)
    by (by rewrite <- app_assoc).
  apply getitem_at. rewrite length_app. simpl. lia.
Qed.

Lemma setitem_at {A} (pre : list A) x post i z :
  i = length pre → setitem (pre ++ x :: post) i z = Ok (pre ++ z :: post).
Proof.
  intros ->. unfold setitem. rewrite decide_True.
  - rewrite insert_app_r_alt by done. by rewrite Nat.sub_diag.
  - rewrite length_app. simpl. lia.
Qed.

Lemma setitem_beyond {A} (pre : list A) x mid y post j z :
  j = (length pre + 1 + length mid)%nat →
  setitem (pre ++ x :: mid ++ y :: post) j z = Ok (pre ++ x :: mid ++ z :: post).
Proof.
  intros ->. replace (pre ++ x :: mid ++ y :: post) with ((pre ++ x :: mid) ++ y :: post)
    by (by rewrite <- app_assoc).
  rewrite setitem_at.
  - by rewrite <- app_assoc.
  - rewrite length_app. simpl. lia.
Qed.

Implicit Types (l pre mid post : list (M * Z)) (x y : M * Z).

Lemma swap_if_less_pairs pre x mid y post i j :
  i = length pre → j = (length pre + 1 + length mid)%nat →
  swap_if_less i j (unzip (pre ++ x :: mid ++ y :: post))
  = Ok (unzip (if x.2 <? y.2 then pre ++ y :: mid ++ x :: post
               else pre ++ x :: mid ++ y :: post)).
Proof.
  intros Hi Hj.
  assert (Hi1 : i = length pre.*1) by (by rewrite length_fmap).
  assert (Hi2 : i = length pre.*2) by (by rewrite length_fmap).
  assert (Hj1 : j = (length pre.*1 + 1 + length mid.*1)%nat)
    by (by rewrite !length_fmap).
  assert (Hj2 : j = (length pre.*2 + 1 + length mid.*2)%nat)
    by (by rewrite !length_fmap).
  unfold swap_if_less, unzip.
  rewrite !fmap_app, !fmap_cons, !fmap_app, !fmap_cons.
  rewrite !(getitem_at pre.*2 x.2 _ i Hi2).
  rewrite !(getitem_beyond pre.*2 x.2 mid.*2 y.2 _ j Hj2).
  cbn [mbind result_bind].
  destruct (x.2 <? y.2).
  - rewrite (setitem_at pre.*2 x.2 _ i y.2 Hi2). cbn [mbind result_bind].
    rewrite (setitem_beyond pre.*2 y.2 mid.*2 y.2 _ j x.2 Hj2).
    cbn [mbind result_bind].
    rewrite (getitem_at pre.*1 x.1 _ i Hi1).
    rewrite (getitem_beyond pre.*1 x.1 mid.*1 y.1 _ j Hj1).
    cbn [mbind result_bind].
    rewrite (setitem_at pre.*1 x.1 _ i y.1 Hi1). cbn [mbind result_bind].
    rewrite (setitem_beyond pre.*1 y.1 mid.*1 y.1 _ j x.1 Hj1).
    cbn [mbind result_bind].
    by rewrite !fmap_app, !fmap_cons, !fmap_app, !fmap_cons.
  - by rewrite !fmap_app, !fmap_cons, !fmap_app, !fmap_cons.
Qed.

Lemma inner_loop_pairs post : ∀ pre x mid,
  for_each (seq (length pre + 1 + length mid) (length post))
           (swap_if_less (length pre)) (unzip (pre ++ x :: mid ++ post))
  = Ok (unzip (pre ++ (round_pairs x post).1 :: mid ++ (round_pairs x post).2)).
Proof.
  induction post as [|y post IH]; intros pre x mid; [done|].
  cbn [length seq for_each].
  rewrite (swap_if_less_pairs pre x mid y post) by done.
  cbn [mbind result_bind round_pairs].
  destruct (x.2 <? y.2).
  - specialize (IH pre y (mid ++ [x])).
    rewrite length_app in IH. cbn [length] in IH.
    replace (length pre + 1 + (length mid + 1))%nat
      with (S (length pre + 1 + length mid)) in IH by lia.
    rewrite <- !app_assoc in IH. cbn [app] in IH. rewrite IH.
    by destruct (round_pairs y post).
  - specialize (IH pre x (mid ++ [y])).
    rewrite length_app in IH. cbn [length] in IH.
    replace (length pre + 1 + (length mid + 1))%nat
      with (S (length pre + 1 + length mid)) in IH by lia.
    rewrite <- !app_assoc in IH. cbn [app] in IH. rewrite IH.
    by destruct (round_pairs x post).
Qed.

Lemma round_pairs_length x t : length (round_pairs x t).2 = length t.
Proof.
  revert x. induction t as [|y t IH]; intros x; [done|]. cbn [round_pairs].
  destruct (x.2 <? y.2).
  - specialize (IH y). destruct (round_pairs y t). simpl in *. lia.
  - specialize (IH x). destruct (round_pairs x t). simpl in *. lia.
Qed.

Lemma sort_round_pairs pre x t :
  sort_round (length pre) (unzip (pre ++ x :: t))
  = Ok (unzip (pre ++ (round_pairs x t).1 :: (round_pairs x t).2)).
Proof.
  unfold sort_round, range. cbn [unzip snd].
  rewrite length_fmap, length_app. cbn [length].
  replace (length pre + S (length t) - (length pre + 1))%nat with (length t) by lia.
  pose proof (inner_loop_pairs t pre x []) as H. cbn [length app] in H.
  by rewrite Nat.add_0_r in H.
Qed.

Lemma outer_loop_pairs n : ∀ pre l, length l = n →
  for_each (seq (length pre) n) sort_round (unzip (pre ++ l))
  = Ok (unzip (pre ++ sort_pairs n l)).
Proof.
  induction n as [|n IH]; intros pre l Hn.
  - by destruct l.
  - destruct l as [|x t]; [done|]. cbn [seq for_each sort_pairs].
    rewrite sort_round_pairs. cbn [mbind result_bind].
    specialize (IH (pre ++ [(round_pairs x t).1]) (round_pairs x t).2).
    rewrite length_app in IH. cbn [length] in IH.
    rewrite Nat.add_1_r in IH. rewrite <- !app_assoc in IH. cbn [app] in IH.
    rewrite IH.
    + by destruct (round_pairs x t).
    + rewrite round_pairs_length. simpl in Hn. lia.
Qed.

Lemma sortMovesAndFrequencies_pairs l :
  sortMovesAndFrequencies l.*1 l.*2 = Ok (unzip (exchange_sort l)).
Proof.
  unfold sortMovesAndFrequencies, range, exchange_sort.
  rewrite length_fmap, Nat.sub_0_r.
  exact (outer_loop_pairs (length l) [] l eq_refl).
Qed.

(** *** What a round and the whole sort do to the pairs *)

Lemma round_pairs_perm x t :
  (round_pairs x t).1 :: (round_pairs x t).2 ≡ₚ x :: t.
Proof.
  revert x. induction t as [|y t IH]; intros x; [done|]. cbn [round_pairs].
  destruct (x.2 <? y.2).
  - specialize (IH y). destruct (round_pairs y t) as [h r]. cbn [fst snd] in *.
    etrans; [apply Permutation_swap|]. by apply Permutation_skip.
  - specialize (IH x). destruct (round_pairs x t) as [h r]. cbn [fst snd] in *.
    etrans; [apply Permutation_swap|].
    etrans; [apply Permutation_skip, IH|]. apply Permutation_swap.
Qed.

Lemma round_pairs_head_ge x t : x.2 ≤ (round_pairs x t).1.2.
Proof.
  revert x. induction t as [|y t IH]; intros x; [done|]. cbn [round_pairs].
  destruct (Z.ltb_spec x.2 y.2).
  - specialize (IH y). destruct (round_pairs y t). cbn [fst snd] in *. lia.
  - specialize (IH x). by destruct (round_pairs x t).
Qed.

Lemma round_pairs_head_max x t :
  Forall (λ y, y.2 ≤ (round_pairs x t).1.2) (round_pairs x t).2.
Proof.
  revert x. induction t as [|y t IH]; intros x; [by constructor|].
  cbn [round_pairs]. destruct (Z.ltb_spec x.2 y.2).
  - specialize (IH y). pose proof (round_pairs_head_ge y t).
    destruct (round_pairs y t). cbn [fst snd] in *. constructor; [lia|done].
  - specialize (IH x). pose proof (round_pairs_head_ge x t).
    destruct (round_pairs x t). cbn [fst snd] in *. constructor; [lia|done].
Qed.

Lemma round_pairs_fixed x t :
  Forall (λ y, y.2 ≤ x.2) t → round_pairs x t = (x, t).
Proof.
  induction 1 as [|y t Hy _ IH]; [done|]. cbn [round_pairs].
  destruct (Z.ltb_spec x.2 y.2); [lia|]. by rewrite IH.
Qed.

Lemma round_pairs_app x t1 t2 :
  round_pairs x (t1 ++ t2)
  = ((round_pairs (round_pairs x t1).1 t2).1,
     (round_pairs x t1).2 ++ (round_pairs (round_pairs x t1).1 t2).2).
Proof.
  revert x. induction t1 as [|y t1 IH]; intros x.
  - cbn. by destruct (round_pairs x t2).
  - cbn [app round_pairs]. destruct (x.2 <? y.2).
    + rewrite IH. by destruct (round_pairs y t1).
    + rewrite IH. by destruct (round_pairs x t1).
Qed.

Lemma sort_pairs_perm n : ∀ l, sort_pairs n l ≡ₚ l.
Proof.
  induction n as [|n IH]; intros [|x t]; try done. cbn [sort_pairs].
  pose proof (round_pairs_perm x t) as Hp.
  destruct (round_pairs x t) as [h r]. cbn [fst snd] in Hp.
  by rewrite IH.
Qed.

Lemma exchange_sort_perm l : exchange_sort l ≡ₚ l.
Proof. apply sort_pairs_perm. Qed.

Lemma sort_pairs_descending n : ∀ l,
  length l = n → descending (sort_pairs n l).*2.
Proof.
  induction n as [|n IH]; intros [|x t] Hn; try done; [constructor|].
  cbn [sort_pairs].
  pose proof (round_pairs_head_max x t) as Hmax.
  pose proof (round_pairs_length x t) as Hlen.
  destruct (round_pairs x t) as [h r]. cbn [fst snd] in *.
  rewrite fmap_cons. constructor.
  - apply IH. simpl in Hn. lia.
  - apply Forall_fmap. by rewrite (sort_pairs_perm n r).
Qed.

Lemma exchange_sort_descending l : descending (exchange_sort l).*2.
Proof. by apply sort_pairs_descending. Qed.

(** An entry that no later entry beats comes out ahead of every entry that
    was behind it. *)
Lemma sort_pairs_keeps_order n : ∀ l l1 l2 a b,
  length l = n → l = l1 ++ a :: l2 → b ∈ l2 →
  Forall (λ y, y.2 ≤ a.2) l2 →
  ∃ s1 s2 s3, sort_pairs n l = s1 ++ a :: s2 ++ b :: s3.
Proof.
  induction n as [|n IH]; intros l l1 l2 a b Hn -> Hb Hle.
  { by destruct l1. }
  destruct l1 as [|x l1]; cbn [app sort_pairs].
  - rewrite round_pairs_fixed by done.
    assert (b ∈ sort_pairs n l2) as Hin by (by rewrite sort_pairs_perm).
    apply list_elem_of_split in Hin as (s2 & s3 & ->).
    by exists [], s2, s3.
  - rewrite round_pairs_app. cbn [round_pairs].
    pose proof (round_pairs_length x l1) as Hlen.
    destruct (round_pairs x l1) as [h0 r1]. cbn [fst snd] in *.
    destruct (Z.ltb_spec h0.2 a.2).
    + rewrite round_pairs_fixed by done. cbn [fst snd].
      assert (b ∈ sort_pairs n (r1 ++ h0 :: l2)) as Hin.
      { rewrite sort_pairs_perm, elem_of_app, elem_of_cons. auto. }
      apply list_elem_of_split in Hin as (s2 & s3 & ->).
      by exists [], s2, s3.
    + rewrite round_pairs_fixed
        by (eapply Forall_impl; [exact Hle|simpl; intros; lia]).
      cbn [fst snd].
      destruct (IH (r1 ++ a :: l2) r1 l2 a b) as (s1 & s2 & s3 & ->); try done.
      { rewrite length_app in *. simpl in *. lia. }
      by exists (h0 :: s1), s2, s3.
Qed.

End SortFacts.

(** ** The table *)

Section TallyFacts.
Context `{EqDecision K}.
Implicit Types (k : K) (t : list (K * Z)) (ks : list K).

Lemma index_Some_lookup k ks i : index k ks = Some i → ks !! i = Some k.
Proof.
  revert i. induction ks as [|y ks IH]; intros i; [done|]. cbn [index].
  case_decide as Hy; [by intros [= <-]; subst|].
  destruct (index k ks) as [i'|]; [|done]. intros [= <-]. by apply IH.
Qed.

Lemma index_None k ks : index k ks = None ↔ k ∉ ks.
Proof.
  induction ks as [|y ks IH]; cbn [index].
  - split; [intros _; apply not_elem_of_nil|done].
  - rewrite not_elem_of_cons. case_decide as Hy.
    + split; [done|]. intros [? _]. by subst.
    + destruct (index k ks); cbn.
      * split; [done|]. intros [_ Hn]. by apply IH in Hn.
      * split; [|done]. intros _. split; [congruence|]. by apply IH.
Qed.

Lemma index_is_Some k ks : is_Some (index k ks) ↔ k ∈ ks.
Proof.
  destruct (index k ks) eqn:E.
  - split; [|by eauto]. intros _. eapply list_elem_of_lookup_2, index_Some_lookup, E.
  - apply index_None in E. split; [by intros [? ?]|done].
Qed.

Lemma index_app_l k ks1 ks2 i :
  index k ks1 = Some i → index k (ks1 ++ ks2) = Some i.
Proof.
  revert i. induction ks1 as [|y ks1 IH]; intros i; [done|]. cbn [app index].
  case_decide; [done|]. destruct (index k ks1); [|done].
  intros [= <-]. by rewrite (IH n).
Qed.

Lemma index_app_r k ks1 ks2 :
  k ∉ ks1 → index k (ks1 ++ ks2) = (λ i, length ks1 + i)%nat <$> index k ks2.
Proof.
  induction ks1 as [|y ks1 IH]; intros Hn.
  - cbn. by destruct (index k ks2).
  - apply not_elem_of_cons in Hn as [Hne Hn]. cbn [app index].
    rewrite decide_False by done. rewrite IH by done.
    by destruct (index k ks2).
Qed.

Lemma index_middle k ks1 ks2 :
  k ∉ ks1 → index k (ks1 ++ k :: ks2) = Some (length ks1).
Proof.
  intros Hn. rewrite index_app_r by done. cbn [index].
  rewrite decide_True by done. cbn. f_equal. lia.
Qed.

Lemma record_move_pairs k t : record_move k (unzip t) = Ok (unzip (bump k t)).
Proof.
  induction t as [|[k' c] t IH]; [done|].
  unfold record_move, unzip, list_in, list_index in *.
  cbn [bump fst snd]. rewrite !fmap_cons. cbn [fst snd index].
  destruct (decide (k' = k)) as [Hk|Hk].
  - subst k'. rewrite bool_decide_eq_true_2 by apply list_elem_of_here. done.
  - rewrite fmap_cons. cbn [fst snd].
    destruct (decide (k ∈ t.*1)) as [Hin|Hin].
    + rewrite bool_decide_eq_true_2 by (by apply list_elem_of_further).
      rewrite bool_decide_eq_true_2 in IH by done.
      destruct (index k t.*1) as [i|]; [|done]. cbn in IH |- *.
      unfold getitem, setitem in *. cbn [lookup list_lookup].
      change ((c :: t.*2) !! S i) with (t.*2 !! i).
      destruct (t.*2 !! i) as [f|]; [|done]. cbn in IH |- *.
      case_decide as Hlt; [|done].
      rewrite decide_True by (simpl; lia). cbn in IH |- *.
      injection IH as H1 H2. by rewrite <- H1, <- H2.
    + rewrite bool_decide_eq_false_2
        by (rewrite not_elem_of_cons; split; [congruence|done]).
      rewrite bool_decide_eq_false_2 in IH by done.
      cbn. injection IH as H1 H2. by rewrite <- H1, <- H2.
Qed.

Lemma for_each_record_move ks : ∀ t,
  for_each ks record_move (unzip t) = Ok (unzip (tally ks t)).
Proof.
  induction ks as [|k ks IH]; intros t; [done|].
  cbn [for_each tally fold_left]. rewrite record_move_pairs. apply IH.
Qed.

Lemma recorded_count_nil k : recorded_count k [] [] = 0.
Proof. done. Qed.

Lemma recorded_count_cons k e t :
  recorded_count k (e :: t).*1 (e :: t).*2
  = if decide (e.1 = k) then e.2 else recorded_count k t.*1 t.*2.
Proof.
  unfold recorded_count. rewrite !fmap_cons. cbn [index].
  case_decide; [done|]. by destruct (index k t.*1).
Qed.

Lemma recorded_count_bump k k' t :
  recorded_count k' (bump k t).*1 (bump k t).*2
  = recorded_count k' t.*1 t.*2 + (if decide (k = k') then 1 else 0).
Proof.
  induction t as [|e t IH]; cbn [bump].
  - rewrite (recorded_count_cons k' (k, 1) []). cbn [fst snd].
    by destruct (decide (k = k')).
  - destruct (decide (e.1 = k)) as [He|He].
    + rewrite (recorded_count_cons k' (e.1, e.2 + 1) t), recorded_count_cons.
      cbn [fst snd]. subst k.
      destruct (decide (e.1 = k')); [done|lia].
    + rewrite !recorded_count_cons.
      destruct (decide (e.1 = k')) as [He'|He']; [|done].
      rewrite decide_False by congruence. lia.
Qed.

(** The number of occurrences of [k] in [ks]. *)
Lemma recorded_count_tally k ks : ∀ t,
  recorded_count k (tally ks t).*1 (tally ks t).*2
  = recorded_count k t.*1 t.*2 + Z.of_nat (length (filter (k =.) ks)).
Proof.
  induction ks as [|k' ks IH]; intros t; [cbn; lia|].
  cbn [tally fold_left]. fold (tally ks (bump k' t)).
  rewrite IH, recorded_count_bump, filter_cons.
  destruct (decide (k' = k)) as [Hk|Hk]; destruct (decide (k = k')) as [Hk'|Hk'];
    try congruence; cbn [length]; lia.
Qed.

Lemma bump_keys k t :
  (bump k t).*1 = if decide (k ∈ t.*1) then t.*1 else t.*1 ++ [k].
Proof.
  induction t as [|e t IH]; cbn [bump].
  - by rewrite decide_False by apply not_elem_of_nil.
  - rewrite fmap_cons. destruct (decide (e.1 = k)) as [He|He].
    + by rewrite decide_True by (subst; apply list_elem_of_here).
    + rewrite fmap_cons, IH. destruct (decide (k ∈ t.*1)) as [Hin|Hin].
      * by rewrite decide_True by (by apply list_elem_of_further).
      * rewrite decide_False; [done|].
        rewrite not_elem_of_cons. split; [congruence|done].
Qed.

Lemma bump_NoDup k t : NoDup t.*1 → NoDup (bump k t).*1.
Proof.
  intros Hnd. rewrite bump_keys. destruct (decide (k ∈ t.*1)) as [Hin|Hin]; [done|].
  apply NoDup_app. split_and!; [done| |apply NoDup_singleton].
  intros x Hx Hx'. apply list_elem_of_singleton in Hx'. by subst.
Qed.

Lemma tally_NoDup ks : ∀ t, NoDup t.*1 → NoDup (tally ks t).*1.
Proof.
  induction ks as [|k ks IH]; intros t Hnd; [done|].
  apply IH. by apply bump_NoDup.
Qed.

Lemma tally_keys k ks : ∀ t, k ∈ (tally ks t).*1 ↔ k ∈ t.*1 ∨ k ∈ ks.
Proof.
  induction ks as [|k' ks IH]; intros t.
  - cbn. rewrite elem_of_nil. tauto.
  - cbn [tally fold_left]. fold (tally ks (bump k' t)).
    rewrite IH, bump_keys, elem_of_cons.
    destruct (decide (k' ∈ t.*1)) as [Hin|Hin].
    + split; [tauto|]. intros [?|[->|?]]; auto.
    + rewrite elem_of_app, list_elem_of_singleton. tauto.
Qed.

Lemma index_lt k ks i : index k ks = Some i → (i < length ks)%nat.
Proof. intros Hi. eapply lookup_lt_Some, index_Some_lookup, Hi. Qed.

Lemma index_split k ks i :
  index k ks = Some i →
  ∃ ks1 ks2, ks = ks1 ++ k :: ks2 ∧ (k ∉ ks1) ∧ length ks1 = i.
Proof.
  revert i. induction ks as [|y ks IH]; intros i; [done|]. cbn [index].
  destruct (decide (y = k)) as [->|Hy].
  - intros [= <-]. exists [], ks. split_and!; [done|apply not_elem_of_nil|done].
  - destruct (index k ks) as [i'|]; [|done]. intros [= <-].
    destruct (IH i' eq_refl) as (ks1 & ks2 & -> & Hn & <-).
    exists (y :: ks1), ks2. split_and!; [done| |done].
    rewrite not_elem_of_cons. split; [congruence|done].
Qed.

Lemma recorded_count_elem t k c :
  NoDup t.*1 → (k, c) ∈ t → recorded_count k t.*1 t.*2 = c.
Proof.
  induction t as [|e t IH]; intros Hnd Hin; [by apply elem_of_nil in Hin|].
  rewrite fmap_cons in Hnd. apply NoDup_cons in Hnd as [Hne Hnd].
  rewrite recorded_count_cons. apply elem_of_cons in Hin as [<-|Hin].
  - by rewrite decide_True.
  - rewrite decide_False; [by apply IH|].
    intros <-. apply Hne, list_elem_of_fmap. by exists (e.1, c).
Qed.

Lemma recorded_count_notin t k : k ∉ t.*1 → recorded_count k t.*1 t.*2 = 0.
Proof. intros Hn. unfold recorded_count. by apply index_None in Hn as ->. Qed.

Lemma recorded_count_perm t t' k :
  NoDup t.*1 → t ≡ₚ t' →
  recorded_count k t'.*1 t'.*2 = recorded_count k t.*1 t.*2.
Proof.
  intros Hnd Hp.
  assert (Hnd' : NoDup t'.*1) by (by rewrite <- Hp).
  destruct (decide (k ∈ t.*1)) as [Hin|Hin].
  - apply list_elem_of_fmap in Hin as ([k' c] & -> & Hin). cbn [fst].
    rewrite (recorded_count_elem t k' c) by done.
    apply recorded_count_elem; [done|]. by rewrite <- Hp.
  - rewrite (recorded_count_notin t) by done.
    apply recorded_count_notin. by rewrite <- Hp.
Qed.

Lemma bump_app_l k t1 t2 : k ∈ t1.*1 → bump k (t1 ++ t2) = bump k t1 ++ t2.
Proof.
  induction t1 as [|e t1 IH]; intros Hin; [by apply elem_of_nil in Hin|].
  cbn [app bump]. destruct (decide (e.1 = k)) as [He|He]; [done|].
  rewrite fmap_cons in Hin. apply elem_of_cons in Hin as [?|Hin]; [congruence|].
  by rewrite IH.
Qed.

Lemma bump_app_r k t1 t2 : k ∉ t1.*1 → bump k (t1 ++ t2) = t1 ++ bump k t2.
Proof.
  induction t1 as [|e t1 IH]; intros Hin; [done|].
  rewrite fmap_cons in Hin. apply not_elem_of_cons in Hin as [Hne Hin].
  cbn [app bump]. rewrite decide_False by congruence. by rewrite IH.
Qed.

(** Once a move is in the table it keeps its place: later games change
    counts and append new moves behind it. *)
Lemma tally_keeps_place ks : ∀ t1 a ca t2,
  a ∉ t1.*1 →
  ∃ t1' ca' t2',
    tally ks (t1 ++ (a, ca) :: t2) = t1' ++ (a, ca') :: t2' ∧ t1'.*1 = t1.*1.
Proof.
  induction ks as [|k ks IH]; intros t1 a ca t2 Ha; [by eauto|].
  cbn [tally fold_left]. fold (tally ks (bump k (t1 ++ (a, ca) :: t2))).
  destruct (decide (k ∈ t1.*1)) as [Hk|Hk].
  - rewrite bump_app_l by done.
    assert (Hkeys : (bump k t1).*1 = t1.*1)
      by (by rewrite bump_keys, decide_True).
    destruct (IH (bump k t1) a ca t2) as (t1' & ca' & t2' & -> & Hk');
      [by rewrite Hkeys|].
    exists t1', ca', t2'. by rewrite Hk'.
  - rewrite bump_app_r by done. cbn [bump fst snd].
    destruct (decide (a = k)) as [->|Hak]; by apply IH.
Qed.

(** The table lists the moves in the order in which they were first seen. *)
Lemma tally_first_seen ks a b i j :
  index a ks = Some i → index b ks = Some j → (i < j)%nat →
  ∃ t1 ca t2,
    tally ks [] = t1 ++ (a, ca) :: t2 ∧ b ∈ t2.*1 ∧
    ∀ c, c ∈ t2.*1 → ∃ n, index c ks = Some n ∧ (i < n)%nat.
Proof.
  intros Ha Hb Hij.
  destruct (index_split a ks i Ha) as (ks1 & ks2 & -> & Ha1 & <-).
  assert (Hkeys1 : ∀ c, c ∈ (tally ks1 []).*1 ↔ c ∈ ks1).
  { intros c. rewrite tally_keys, elem_of_nil. tauto. }
  assert (HT : tally (ks1 ++ a :: ks2) []
               = tally ks2 (tally ks1 [] ++ (a, 1) :: [])).
  { unfold tally. rewrite fold_left_app. cbn [fold_left]. f_equal.
    rewrite <- (app_nil_r (fold_left _ ks1 [])) at 1.
    apply bump_app_r. by rewrite (Hkeys1 a). }
  destruct (tally_keeps_place ks2 (tally ks1 []) a 1 [])
    as (t1 & ca & t2 & Hsplit & Hk1); [by rewrite (Hkeys1 a)|].
  rewrite Hsplit in HT.
  assert (Hnd : NoDup (t1 ++ (a, ca) :: t2).*1).
  { rewrite <- HT. apply tally_NoDup. constructor. }
  rewrite fmap_app, fmap_cons in Hnd. cbn [fst] in Hnd.
  apply NoDup_app in Hnd as (_ & Hdisj & Hnd2).
  apply NoDup_cons in Hnd2 as [Ha2 _].
  assert (Hlate : ∀ c, c ∈ t2.*1 →
            ∃ n, index c (ks1 ++ a :: ks2) = Some n ∧ (length ks1 < n)%nat).
  { intros c Hc.
    assert (c ∉ ks1) as Hc1.
    { rewrite <- Hkeys1, <- Hk1. intros Hc1. apply (Hdisj c Hc1).
      by apply list_elem_of_further. }
    assert (c ≠ a) as Hca by (by intros ->).
    assert (c ∈ ks1 ++ a :: ks2) as Hin.
    { assert (c ∈ (tally (ks1 ++ a :: ks2) []).*1) as Hin.
      { rewrite HT, fmap_app, fmap_cons, elem_of_app, elem_of_cons. auto. }
      apply tally_keys in Hin as [Hin|Hin]; [by apply elem_of_nil in Hin|done]. }
    apply index_is_Some in Hin as [n Hk]. exists n. split; [done|].
    rewrite index_app_r in Hk by done. cbn [index] in Hk.
    rewrite decide_False in Hk by done.
    destruct (index c ks2); [|done]. cbn in Hk. injection Hk as <-. lia. }
  exists t1, ca, t2. split_and!; [done| |done].
  assert (b ∈ (tally (ks1 ++ a :: ks2) []).*1) as Hin.
  { apply tally_keys. right. apply index_is_Some. by eauto. }
  rewrite HT, fmap_app, fmap_cons, elem_of_app, elem_of_cons in Hin. cbn [fst] in Hin.
  destruct Hin as [Hin|[->|Hin]]; [| |done].
  - rewrite Hk1, Hkeys1 in Hin. apply index_is_Some in Hin as [j' Hj'].
    pose proof (index_lt _ _ _ Hj').
    rewrite (index_app_l _ _ _ _ Hj') in Hb. injection Hb as <-. lia.
  - rewrite Ha in Hb. injection Hb as <-. lia.
Qed.

End TallyFacts.

(** ** The queries *)

Lemma string_app_cons (c : ascii) (s1 s2 : string) :
  String c s1 +:+ s2 = String c (s1 +:+ s2).
Proof. reflexivity. Qed.

Lemma string_app_assoc (s1 s2 s3 : string) :
  (s1 +:+ s2) +:+ s3 = s1 +:+ (s2 +:+ s3).
Proof.
  induction s1 as [|c s1 IH]; [reflexivity|].
  by rewrite !string_app_cons, IH.
Qed.

Lemma string_app_empty_r (s : string) : s +:+ "" = s.
Proof.
  induction s as [|c s IH]; [reflexivity|]. by rewrite string_app_cons, IH.
Qed.

Lemma table_lines_pairs (t : list (next_move_t * Z)) :
  table_lines t.*1 t.*2 = Ok (table_text t).
Proof.
  unfold table_lines, range. rewrite length_fmap, Nat.sub_0_r.
  enough (∀ post pre s,
    for_each (seq (length pre) (length post))
      (λ i s, m ← getitem (pre ++ post).*1 i;
              f ← getitem (pre ++ post).*2 i;
              Ok (s +:+ table_line m f)) s
    = Ok (s +:+ table_text post)) as H by exact (H t [] "").
  induction post as [|e post IH]; intros pre s.
  - cbn. by rewrite string_app_empty_r.
  - cbn [length seq for_each table_text].
    rewrite !fmap_app, !fmap_cons.
    rewrite (getitem_at pre.*1 e.1 _ (length pre)) by (by rewrite length_fmap).
    rewrite (getitem_at pre.*2 e.2 _ (length pre)) by (by rewrite length_fmap).
    cbn [mbind result_bind].
    specialize (IH (pre ++ [e]) (s +:+ table_line e.1 e.2)).
    rewrite length_app, Nat.add_1_r, <- app_assoc in IH. cbn [app] in IH.
    rewrite !fmap_app, !fmap_cons in IH. rewrite IH.
    by rewrite string_app_assoc.
Qed.

Lemma filter_cons_bool {A} (f : A → bool) (x : A) (l : list A) :
  filter f (x :: l) = if f x then x :: filter f l else filter f l.
Proof. rewrite filter_cons. by destruct (f x). Qed.

Lemma filter_ext_bool {A} (f g : A → bool) (l : list A) :
  (∀ x, f x = g x) → filter f l = filter g l.
Proof.
  intros Hfg. induction l as [|x l IH]; [done|].
  by rewrite !filter_cons_bool, Hfg, IH.
Qed.

Lemma filter_ext_in_bool {A} (f g : A → bool) (l : list A) :
  (∀ x, x ∈ l → f x = g x) → filter f l = filter g l.
Proof.
  induction l as [|x l IH]; intros Hfg; [done|].
  rewrite !filter_cons_bool, Hfg, IH; [done| |apply list_elem_of_here].
  intros y Hy. by apply Hfg, list_elem_of_further.
Qed.

Lemma filter_true_bool {A} (f : A → bool) (l : list A) :
  (∀ x, f x = true) → filter f l = l.
Proof.
  intros Hf. induction l as [|x l IH]; [done|].
  by rewrite filter_cons_bool, Hf, IH.
Qed.

Lemma filter_false_bool {A} (f : A → bool) (l : list A) :
  (∀ x, x ∈ l → f x = false) → filter f l = [].
Proof.
  induction l as [|x l IH]; intros Hf; [done|].
  rewrite filter_cons_bool, Hf by apply list_elem_of_here.
  apply IH. intros y Hy. by apply Hf, list_elem_of_further.
Qed.

(** The starting position of a game is one of its positions, and the move
    after it is the first move of the game. *)
Lemma containsPosition_start (game : Board) :
  containsPosition game (start_position game) = true.
Proof.
  unfold containsPosition, containsFEN.
  destruct (plies game); cbn [first_occurrence]; by rewrite String.eqb_refl.
Qed.

Lemma nextMoveAfter_start (game : Board) :
  nextMoveAfter game (start_position game) = fst <$> head (plies game).
Proof.
  unfold nextMoveAfter, containsFEN, getNextMove.
  destruct (plies game) as [|[m pos] rest] eqn:E; cbn [first_occurrence];
    rewrite String.eqb_refl; cbn; by rewrite E.
Qed.

(** A game without moves has no move after its only position. *)
Lemma nextMoveAfter_no_moves (game : Board) (FEN : string) :
  plies game = [] → nextMoveAfter game FEN = None.
Proof.
  intros E. unfold nextMoveAfter, containsFEN, getNextMove. rewrite E.
  cbn [first_occurrence]. destruct (String.eqb _ _); cbn; by rewrite E.
Qed.

Section QueryFacts.
Context {J : Type}.
Implicit Types (p : @Profile J) (FEN : string) (white : bool) (game : Board).

Lemma color_matches_replayed p game FEN white :
  color_matches p (containsFEN game FEN).2 white = color_matches p game white.
Proof. unfold color_matches, containsFEN. by destruct (first_occurrence _ _ _ _). Qed.

(** The colour test of the code, written out. *)
Lemma color_matches_white_name p game white :
  color_matches p game white
  = if white then (white_player game =? username p)%string
    else negb (white_player game =? username p)%string.
Proof.
  unfold color_matches. by destruct white, (white_player game =? username p)%string.
Qed.

Lemma qualifies_color_matches p FEN white game :
  qualifies p FEN white game
  = containsPosition game FEN && color_matches p game white.
Proof. unfold qualifies. by rewrite color_matches_white_name. Qed.

Lemma findGamesWithFEN_filter p FEN :
  findGamesWithFEN p FEN
  = (λ game, (containsFEN game FEN).2)
      <$> filter (λ game, containsPosition game FEN) (games p).
Proof.
  unfold findGamesWithFEN.
  enough (∀ l acc,
    fold_left (λ games board,
                 let '(found, board) := containsFEN board FEN in
                 if found then games ++ [board] else games) l acc
    = acc ++ ((λ game, (containsFEN game FEN).2)
                <$> filter (λ game, containsPosition game FEN) l)) as H
    by apply (H _ []).
  induction l as [|b l IH]; intros acc; [by rewrite app_nil_r|].
  cbn [fold_left]. rewrite filter_cons_bool. unfold containsPosition at 1.
  destruct (containsFEN b FEN) as [[] b'] eqn:E; cbn [fst].
  - rewrite IH, <- app_assoc. cbn. by rewrite E.
  - by rewrite IH.
Qed.

(** [findGamesWithFENandColor] returns the qualifying games, replayed. *)
Lemma findGamesWithFENandColor_filter p FEN white :
  findGamesWithFENandColor p FEN white
  = (λ game, (containsFEN game FEN).2)
      <$> filter (qualifies p FEN white) (games p).
Proof.
  unfold findGamesWithFENandColor.
  enough (∀ l acc,
    fold_left (λ games board,
                 let '(found, board) := containsFEN board FEN in
                 if found && color_matches p board white
                 then games ++ [board] else games) l acc
    = acc ++ ((λ game, (containsFEN game FEN).2)
                <$> filter (qualifies p FEN white) l)) as H
    by apply (H _ []).
  induction l as [|b l IH]; intros acc; [by rewrite app_nil_r|].
  cbn [fold_left]. rewrite filter_cons_bool, qualifies_color_matches.
  unfold containsPosition. rewrite <- (color_matches_replayed p b FEN white).
  destruct (containsFEN b FEN) as [found b'] eqn:E; cbn [fst snd].
  destruct (found && color_matches p b' white).
  - rewrite IH, <- app_assoc. cbn. by rewrite E.
  - by rewrite IH.
Qed.

(** The loop of [findMovesAfterFEN] records the next moves of the
    qualifying games, in the order of the corpus. *)
Lemma count_next_moves p FEN white st :
  for_each (findGamesWithFEN p FEN) (count_next_move p white) st
  = for_each (next_moves p FEN white) record_move st.
Proof.
  rewrite findGamesWithFEN_filter. unfold next_moves.
  generalize (games p) as l. intros l. revert st.
  induction l as [|b l IH]; intros st; [done|].
  rewrite !filter_cons_bool, qualifies_color_matches.
  destruct (containsPosition b FEN) eqn:Ec; cbn [andb]; [|apply IH].
  rewrite fmap_cons. cbn [for_each].
  change (count_next_move p white (containsFEN b FEN).2 st)
    with (if color_matches p (containsFEN b FEN).2 white
          then record_move (nextMoveAfter b FEN) st else Ok st).
  rewrite color_matches_replayed.
  destruct (color_matches p b white) eqn:Em; cbn [mbind result_bind].
  - rewrite fmap_cons. cbn [for_each].
    destruct (record_move _ st); cbn [mbind result_bind]; [apply IH|done].
  - apply IH.
Qed.

Lemma frequency_table_tally p FEN white :
  frequency_table p FEN white = Ok (unzip (tally (next_moves p FEN white) [])).
Proof.
  unfold frequency_table. rewrite count_next_moves.
  apply (for_each_record_move _ []).
Qed.

Lemma findMovesAfterFEN_pairs p FEN white :
  findMovesAfterFEN p FEN white
  = Ok (unzip (exchange_sort (tally (next_moves p FEN white) []))).
Proof.
  unfold findMovesAfterFEN. rewrite frequency_table_tally.
  cbn [mbind result_bind unzip]. apply sortMovesAndFrequencies_pairs.
Qed.

Lemma moveTable_pairs p FEN white :
  moveTable p FEN white
  = Ok (table_text (exchange_sort (tally (next_moves p FEN white) []))).
Proof.
  unfold moveTable. rewrite findMovesAfterFEN_pairs.
  cbn [mbind result_bind unzip]. apply table_lines_pairs.
Qed.

Lemma mostCommonMove_pairs p FEN white :
  mostCommonMove p FEN white
  = getitem (exchange_sort (tally (next_moves p FEN white) [])).*1 0.
Proof. unfold mostCommonMove. by rewrite findMovesAfterFEN_pairs. Qed.

End QueryFacts.

(** ** The frequency table of [findMovesAfterFEN] *)

Lemma zip_unzip {A B} (l : list (A * B)) : zip l.*1 l.*2 = l.
Proof. induction l as [|[a b] l IH]; [done|]. cbn. by rewrite IH. Qed.

Lemma descending_head_max c cs c' : descending (c :: cs) → c' ∈ c :: cs → c' ≤ c.
Proof.
  intros Hs Hin. apply StronglySorted_inv in Hs as [_ Hall].
  apply elem_of_cons in Hin as [->|Hin]; [lia|].
  by apply (proj1 (Forall_forall _ _) Hall).
Qed.

Lemma length_filter_fmap {A B} `{EqDecision B} (f : A → B) (q : A → bool)
    (k : B) (l : list A) :
  length (filter (k =.) (f <$> filter q l))
  = length (filter (λ x, q x && bool_decide (f x = k)) l).
Proof.
  induction l as [|x l IH]; [done|].
  rewrite !filter_cons_bool. destruct (q x); cbn [andb]; [|done].
  rewrite fmap_cons, filter_cons.
  destruct (decide (k = f x)) as [->|Hne].
  - rewrite bool_decide_eq_true_2 by done. cbn [length]. by rewrite IH.
  - rewrite bool_decide_eq_false_2 by congruence. done.
Qed.

Section TableFacts.
Context {J : Type}.
Implicit Types (p : @Profile J) (FEN : string) (white : bool).

Lemma sorted_table_NoDup p FEN white : NoDup (sorted_table p FEN white).*1.
Proof.
  unfold sorted_table. rewrite exchange_sort_perm. apply tally_NoDup. constructor.
Qed.

Lemma sorted_table_count p FEN white (k : next_move_t) :
  recorded_count k (sorted_table p FEN white).*1 (sorted_table p FEN white).*2
  = Z.of_nat (length (filter (k =.) (next_moves p FEN white))).
Proof.
  unfold sorted_table.
  rewrite (recorded_count_perm (tally (next_moves p FEN white) [])).
  - by rewrite recorded_count_tally.
  - apply tally_NoDup. constructor.
  - symmetry. apply exchange_sort_perm.
Qed.

(** Without a qualifying game the table and the text are empty, and
    [mostCommonMove] reads the first element of an empty list. *)
Lemma no_qualifying_game p FEN white :
  (∀ game, game ∈ games p → qualifies p FEN white game = false) →
  findMovesAfterFEN p FEN white = Ok ([], []) ∧
  moveTable p FEN white = Ok "" ∧
  mostCommonMove p FEN white = Raise IndexError.
Proof.
  intros Hno.
  rewrite findMovesAfterFEN_pairs, moveTable_pairs, mostCommonMove_pairs.
  unfold next_moves. by rewrite (filter_false_bool _ _ Hno).
Qed.

(** A qualifying game that ends at the position puts the absent move in
    the table. *)
Lemma absent_move_recorded p FEN white game :
  game ∈ games p → qualifies p FEN white game = true →
  nextMoveAfter game FEN = None →
  ∃ moves frequencies,
    findMovesAfterFEN p FEN white = Ok (moves, frequencies) ∧
    None ∈ moves ∧ 1 ≤ recorded_count None moves frequencies.
Proof.
  intros Hin Hq Hnone. eexists _, _.
  split; [apply findMovesAfterFEN_pairs|].
  fold (sorted_table p FEN white). cbn [unzip].
  assert (1 ≤ recorded_count None (sorted_table p FEN white).*1
                (sorted_table p FEN white).*2) as Hc.
  { rewrite sorted_table_count. set (l := filter _ _).
    assert (None ∈ l) as Hn.
    { apply list_elem_of_filter. split; [done|].
      unfold next_moves. apply list_elem_of_fmap. exists game.
      split; [done|]. apply list_elem_of_filter. split; [|done].
      by rewrite Hq. }
    apply list_elem_of_split in Hn as (l1 & l2 & ->).
    rewrite length_app. cbn [length]. lia. }
  split; [|done].
  destruct (decide (None ∈ (sorted_table p FEN white).*1)) as [|Hn]; [done|].
  rewrite recorded_count_notin in Hc by done. lia.
Qed.

(** Asked for the games of the player as Black, the queries count every
    game with the position whose White has another name than the
    username, whatever the name of its Black. *)
Lemma other_white_counted p FEN game (m : Move) :
  game ∈ games p → containsPosition game FEN = true →
  white_player game ≠ username p →
  nextMoveAfter game FEN = Some m →
  ∃ moves frequencies,
    findMovesAfterFEN p FEN false = Ok (moves, frequencies) ∧
    1 ≤ recorded_count (Some m) moves frequencies.
Proof.
  intros Hin Hc Hw Hm. eexists _, _.
  split; [apply findMovesAfterFEN_pairs|].
  fold (sorted_table p FEN false). cbn [unzip].
  rewrite sorted_table_count. set (l := filter _ _).
  assert (Some m ∈ l) as Hl.
  { apply list_elem_of_filter. split; [done|].
    unfold next_moves. apply list_elem_of_fmap. exists game.
    split; [done|]. apply list_elem_of_filter. split; [|done].
    unfold qualifies. rewrite Hc.
    by destruct (String.eqb_spec (white_player game) (username p)). }
  apply list_elem_of_split in Hl as (l1 & l2 & ->).
  rewrite length_app. cbn [length]. lia.
Qed.

End TableFacts.

Import Sample.

(** The count recorded for a move is the number of games of the active
    list that contain the position, whose White has the username for name
    when White is selected and another name when Black is selected, and
    that continue with that move; three games with next moves g1f3, g1f3
    and d2d4 give the table g1f3: 2, d2d4: 1 and the most common move
    g1f3. *)
Lemma findMovesAfterFEN_counts :
  (∀ J (p : @Profile J) FEN white (m : Move),
     ∃ moves frequencies,
       findMovesAfterFEN p FEN white = Ok (moves, frequencies) ∧
       recorded_count (Some m) moves frequencies
       = Z.of_nat (length (filter
           (λ game, qualifies p FEN white game
                    && bool_decide (nextMoveAfter game FEN = Some m))
           (games p)))) ∧
  findMovesAfterFEN three_games start_fen true
  = Ok ([Some g1f3; Some d2d4], [2; 1]) ∧
  mostCommonMove three_games start_fen true = Ok (Some g1f3).
Proof.
  split; [|by vm_compute].
  intros J p FEN white m. eexists _, _. split.
  - apply findMovesAfterFEN_pairs.
  - fold (sorted_table p FEN white). rewrite sorted_table_count.
    unfold next_moves. by rewrite length_filter_fmap.
Qed.

(** Where every game of the active list has the player, under the
    username, on one side and not on the other, the games counted are the
    games in which the player has the selected colour. *)
Lemma findMovesAfterFEN_counts_one_side {J} (p : @Profile J) FEN white
    (m : Move) :
  (∀ game, game ∈ games p →
     (black_player game =? username p)%string
     = negb (white_player game =? username p)%string) →
  ∃ moves frequencies,
    findMovesAfterFEN p FEN white = Ok (moves, frequencies) ∧
    recorded_count (Some m) moves frequencies
    = Z.of_nat (length (filter
        (λ game, containsPosition game FEN && has_color p game white
                 && bool_decide (nextMoveAfter game FEN = Some m))
        (games p))).
Proof.
  intros Hside.
  destruct findMovesAfterFEN_counts as [Hcount _].
  destruct (Hcount J p FEN white m) as (moves & frequencies & Hr & Hc).
  exists moves, frequencies. split; [done|]. rewrite Hc. do 2 f_equal.
  apply filter_ext_in_bool. intros game Hgame.
  unfold qualifies, has_color. destruct white; [done|].
  by rewrite (Hside game Hgame).
Qed.

(** C2, for the profile of aronfrish with one archived game, whose White
    is written AronFrish and whose Black is opponent: asked for the games
    of the player as Black, [findMovesAfterFEN] counts the game, in which
    the player is not Black.  The count for g1f3 is 1, and the games of
    the active list with the position, the player as Black and g1f3 as
    next move are none. *)
Theorem findMovesAfterFEN_counts_not_black :
  games capitalised_games = [board_of capitalised] ∧
  has_color capitalised_games (board_of capitalised) false = false ∧
  findMovesAfterFEN capitalised_games start_fen false
  = Ok ([Some g1f3], [1]) ∧
  filter (λ game, containsPosition game start_fen
                  && has_color capitalised_games game false
                  && bool_decide (nextMoveAfter game start_fen = Some g1f3))
         (games capitalised_games)
  = [].
Proof. by vm_compute. Qed.

(** The pairs returned by [findMovesAfterFEN] are a permutation of the
    pairs accumulated by its loop, in descending order of count, and
    [mostCommonMove] returns the first key of a table that is not empty,
    a move or [None], whose count is a greatest one. *)
Lemma findMovesAfterFEN_sorted_permutation {J} (p : @Profile J) FEN white :
  ∃ table moves frequencies,
    frequency_table p FEN white = Ok table ∧
    findMovesAfterFEN p FEN white = Ok (moves, frequencies) ∧
    length moves = length frequencies ∧
    zip moves frequencies ≡ₚ zip table.1 table.2 ∧
    descending frequencies ∧
    (moves ≠ [] →
     ∃ m c, mostCommonMove p FEN white = Ok m ∧
            (m, c) ∈ zip moves frequencies ∧
            ∀ c', c' ∈ frequencies → c' ≤ c).
Proof.
  eexists _, _, _. split; [apply frequency_table_tally|].
  split; [apply findMovesAfterFEN_pairs|].
  rewrite mostCommonMove_pairs. fold (sorted_table p FEN white).
  cbn [unzip fst snd]. rewrite !zip_unzip.
  split_and!.
  - by rewrite !length_fmap.
  - apply exchange_sort_perm.
  - apply exchange_sort_descending.
  - pose proof (exchange_sort_descending (tally (next_moves p FEN white) []))
      as Hs. fold (sorted_table p FEN white) in Hs.
    destruct (sorted_table p FEN white) as [|[m c] t]; [done|]. intros _.
    exists m, c. split_and!; [done|apply list_elem_of_here|].
    intros c' Hc'. by apply (descending_head_max c t.*2).
Qed.

(** C5, with two games that end at the target position and one that goes
    on with g1f3: the result is not empty, and what [mostCommonMove]
    returns is [None], no move. *)
Theorem mostCommonMove_returns_no_move :
  findMovesAfterFEN mostly_abandoned fen_e4_e5 true
  = Ok ([None; Some g1f3], [2; 1]) ∧
  mostCommonMove mostly_abandoned fen_e4_e5 true = Ok None ∧
  ∀ m : Move, mostCommonMove mostly_abandoned fen_e4_e5 true ≠ Ok (Some m).
Proof. split_and!; [by vm_compute..|]. intros m. by vm_compute. Qed.

(** [moveTable] returns, for the sorted table of [findMovesAfterFEN],
    whose keys are distinct, one line "key: count" per entry, each ended
    by a newline, in the order of the table; for g1f3: 158, d1h5: 27,
    d2d4: 26 the text is the one of the docstring. *)
Lemma moveTable_lines :
  (∀ J (p : @Profile J) FEN white,
     ∃ moves frequencies,
       findMovesAfterFEN p FEN white = Ok (moves, frequencies) ∧
       length moves = length frequencies ∧
       NoDup moves ∧
       moveTable p FEN white = Ok (table_text (zip moves frequencies))) ∧
  (∀ m f, table_line m f = str_move m +:+ ": " +:+ str_int f +:+ newline) ∧
  moveTable docstring_games fen_e4_e5 true
  = Ok ("g1f3: 158" +:+ newline +:+ "d1h5: 27" +:+ newline
        +:+ "d2d4: 26" +:+ newline).
Proof.
  split_and!; [| |by vm_compute].
  - intros J p FEN white. eexists _, _.
    split; [apply findMovesAfterFEN_pairs|].
    rewrite moveTable_pairs. fold (sorted_table p FEN white).
    cbn [unzip]. rewrite zip_unzip. split_and!; [|apply sorted_table_NoDup|done].
    by rewrite !length_fmap.
  - intros m f. unfold table_line. by rewrite !string_app_assoc.
Qed.

(** C9, with the same three games, of which one goes on with a move: the
    text has two lines, and the first is the line of no move. *)
Theorem moveTable_line_of_no_move :
  next_moves mostly_abandoned fen_e4_e5 true = [Some g1f3; None; None] ∧
  moveTable mostly_abandoned fen_e4_e5 true
  = Ok ("None: 2" +:+ newline +:+ "g1f3: 1" +:+ newline) ∧
  ∀ (m : Move) (c : Z), table_line (Some m) c ≠ "None: 2" +:+ newline.
Proof.
  split_and!; [by vm_compute..|].
  intros [[f r] d k] c. unfold table_line, str_move, uci, square_name.
  cbn [origin sq_file]. by destruct f.
Qed.

Section TieFacts.
Context {J : Type}.
Implicit Types (p : @Profile J) (FEN : string) (white : bool).

Lemma index_in_pairs {K} `{EqDecision K} (s1 s2 : list (K * Z)) (a : K) (c : Z) :
  NoDup (s1 ++ (a, c) :: s2).*1 →
  index a (s1 ++ (a, c) :: s2).*1 = Some (length s1).
Proof.
  rewrite fmap_app, fmap_cons. cbn [fst]. intros Hnd.
  rewrite index_middle; [by rewrite length_fmap|].
  apply NoDup_app in Hnd as (_ & Hdisj & _). intros Hin.
  apply (Hdisj a Hin), list_elem_of_here.
Qed.

(** A move that no move first seen after it beats is ranked ahead of every
    move first seen after it. *)
Lemma unbeaten_ranked_before p FEN white (a b : next_move_t) :
  first_seen_before a b (next_moves p FEN white) →
  (∀ c, first_seen_before a c (next_moves p FEN white) →
        length (filter (c =.) (next_moves p FEN white))
        ≤ length (filter (a =.) (next_moves p FEN white)))%nat →
  ranked_before a b (sorted_table p FEN white).*1.
Proof.
  intros (i & j & Hi & Hj & Hij) Hle.
  destruct (tally_first_seen _ a b i j Hi Hj Hij)
    as (t1 & ca & t2 & HT & Hb & Hlate).
  assert (Hnd : NoDup (tally (next_moves p FEN white) []).*1)
    by (apply tally_NoDup; constructor).
  assert (Hcount : ∀ k c, (k, c) ∈ tally (next_moves p FEN white) [] →
            c = Z.of_nat (length (filter (k =.) (next_moves p FEN white)))).
  { intros k c Hin. rewrite <- (recorded_count_elem _ k c Hnd Hin).
    by rewrite recorded_count_tally. }
  apply list_elem_of_fmap in Hb as ([b' cb] & -> & Hb). cbn [fst] in *.
  assert (Hall : Forall (λ y, y.2 ≤ ca) t2).
  { apply Forall_forall. intros [c cc] Hc. cbn [snd].
    rewrite (Hcount c cc), (Hcount a ca).
    - apply inj_le, Hle. destruct (Hlate c) as (n & Hn & Hlt).
      + apply list_elem_of_fmap. by exists (c, cc).
      + by exists i, n.
    - rewrite HT, elem_of_app, elem_of_cons. auto.
    - rewrite HT, elem_of_app, elem_of_cons. auto. }
  destruct (sort_pairs_keeps_order _ _ t1 t2 (a, ca) (b', cb) eq_refl HT Hb Hall)
    as (s1 & s2 & s3 & Hs).
  pose proof (sorted_table_NoDup p FEN white) as Hnds.
  unfold sorted_table, exchange_sort in *. rewrite Hs in *.
  exists (length s1), (length (s1 ++ (a, ca) :: s2)). split_and!.
  - by apply index_in_pairs.
  - replace (s1 ++ (a, ca) :: s2 ++ (b', cb) :: s3)
      with ((s1 ++ (a, ca) :: s2) ++ (b', cb) :: s3) in *
      by (by rewrite <- app_assoc).
    by apply index_in_pairs.
  - rewrite length_app. simpl. lia.
Qed.

End TieFacts.

(** C1, as stated, fails: in the four games after 1. e4 e5 with next moves
    g1f3, d2d4, d1h5, d1h5, the moves g1f3 and d2d4 end with count 1 each
    and g1f3 was seen first, yet d2d4 is ranked ahead of g1f3. *)
Lemma tie_break_not_first_insertion :
  ∃ moves frequencies,
    findMovesAfterFEN four_games fen_e4_e5 true = Ok (moves, frequencies) ∧
    first_seen_before (Some g1f3) (Some d2d4)
                      (next_moves four_games fen_e4_e5 true) ∧
    recorded_count (Some g1f3) moves frequencies
    = recorded_count (Some d2d4) moves frequencies ∧
    ranked_before (Some d2d4) (Some g1f3) moves ∧
    ¬ ranked_before (Some g1f3) (Some d2d4) moves.
Proof.
  exists [Some d1h5; Some d2d4; Some g1f3], [2; 1; 1].
  split_and!; [by vm_compute| |by vm_compute| |].
  - exists 0%nat, 1%nat. by vm_compute.
  - exists 1%nat, 2%nat. by vm_compute.
  - intros (i & j & Hi & Hj & Hij). vm_compute in Hi, Hj.
    injection Hi as <-. injection Hj as <-. lia.
Qed.

(** C1, amended: of two moves with equal counts, the one whose first
    qualifying game came earlier is ranked first, provided that no move
    first seen after it has a greater count. *)
Theorem tie_break_when_unbeaten {J} (p : @Profile J) FEN white
    (a b : next_move_t) moves frequencies :
  findMovesAfterFEN p FEN white = Ok (moves, frequencies) →
  first_seen_before a b (next_moves p FEN white) →
  recorded_count a moves frequencies = recorded_count b moves frequencies →
  (∀ c, first_seen_before a c (next_moves p FEN white) →
        recorded_count c moves frequencies ≤ recorded_count a moves frequencies) →
  ranked_before a b moves.
Proof.
  rewrite findMovesAfterFEN_pairs. fold (sorted_table p FEN white).
  intros [= <- <-] Hab _ Hle.
  apply unbeaten_ranked_before; [done|].
  intros c Hc. specialize (Hle c Hc). rewrite !sorted_table_count in Hle. lia.
Qed.

Lemma tie_break_when_unbeaten_witness :
  ranked_before (Some g1f3) (Some d2d4)
                [Some d1h5; Some g1f3; Some d2d4].
Proof.
  apply (tie_break_when_unbeaten four_games_sorted fen_e4_e5 true
           (Some g1f3) (Some d2d4) _ [2; 1; 1]).
  - by vm_compute.
  - exists 2%nat, 3%nat. by vm_compute.
  - by vm_compute.
  - assert (next_moves four_games_sorted fen_e4_e5 true
            = [Some d1h5; Some d1h5; Some g1f3; Some d2d4]) as ->
      by (by vm_compute).
    intros c (i & j & Hi & Hj & Hij).
    vm_compute in Hi. injection Hi as <-.
    assert (c ∈ [Some d1h5; Some d1h5; Some g1f3; Some d2d4]) as Hin
      by (apply index_is_Some; eauto).
    rewrite !elem_of_cons, elem_of_nil in Hin.
    destruct Hin as [->|[->|[->|[->|[]]]]]; vm_compute in Hj;
      injection Hj as <-; try lia; by vm_compute.
Defined.

(** C3, at a position that no game of the corpus reaches:
    [findMovesAfterFEN] returns two empty lists and [moveTable] the empty
    text, but [mostCommonMove] raises [IndexError]. *)
Theorem mostCommonMove_no_match :
  findMovesAfterFEN three_games fen_e4_e5 true = Ok ([], []) ∧
  moveTable three_games fen_e4_e5 true = Ok "" ∧
  mostCommonMove three_games fen_e4_e5 true = Raise IndexError.
Proof. by vm_compute. Qed.

(** C4, with a game that ends at the target position: the absent next move
    is entered in the table, with count 1, and is even the most common
    move. *)
Theorem final_position_counted :
  nextMoveAfter (board_of abandoned) fen_e4_e5 = None ∧
  findMovesAfterFEN two_games fen_e4_e5 true = Ok ([None; Some g1f3], [1; 1]) ∧
  mostCommonMove two_games fen_e4_e5 true = Ok None ∧
  moveTable two_games fen_e4_e5 true
  = Ok ("None: 1" +:+ newline +:+ "g1f3: 1" +:+ newline).
Proof. by vm_compute. Qed.

(** ** [filterGameType] *)

Lemma lower_ascii_zero (c : ascii) : lower_ascii c = "0"%char ↔ c = "0"%char.
Proof.
  destruct c as [[] [] [] [] [] [] [] []]; vm_compute; split; congruence.
Qed.

Lemma str_in_zero_cons (c : ascii) (s : string) :
  str_in "0" (String c s) = bool_decide (c = "0"%char) || str_in "0" s.
Proof.
  cbn [str_in String.prefix]. f_equal.
  destruct (ascii_dec "0" c) as [<-|Hne].
  - rewrite bool_decide_eq_true_2 by done. by destruct s.
  - by rewrite bool_decide_eq_false_2 by congruence.
Qed.

Lemma str_in_zero_lower (s : string) : str_in "0" (lower s) = str_in "0" s.
Proof.
  induction s as [|c s IH]; [done|]. cbn [lower].
  rewrite !str_in_zero_cons, IH. f_equal. apply bool_decide_ext, lower_ascii_zero.
Qed.

Lemma list_in_three (x a b c : string) :
  list_in x [a; b; c] = (x =? a)%string || (x =? b)%string || (x =? c)%string.
Proof.
  unfold list_in.
  destruct (String.eqb_spec x a) as [->|Ha];
    [by rewrite bool_decide_eq_true_2 by apply list_elem_of_here|].
  destruct (String.eqb_spec x b) as [->|Hb];
    [by rewrite bool_decide_eq_true_2 by apply list_elem_of_further, list_elem_of_here|].
  destruct (String.eqb_spec x c) as [->|Hc].
  - rewrite bool_decide_eq_true_2; [done|]. rewrite !elem_of_cons. auto.
  - rewrite bool_decide_eq_false_2; [done|].
    rewrite !elem_of_cons, elem_of_nil. intros [?|[?|[?|[]]]]; congruence.
Qed.

Lemma list_in_one (x a : string) : list_in x [a] = (x =? a)%string.
Proof.
  unfold list_in. destruct (String.eqb_spec x a) as [->|Ha].
  - by rewrite bool_decide_eq_true_2 by apply list_elem_of_here.
  - rewrite bool_decide_eq_false_2; [done|].
    rewrite elem_of_cons, elem_of_nil. intros [?|[]]; congruence.
Qed.

Section FilterFacts.
Context {J : Type}.
Implicit Types (p q : @Profile J) (type : string).

Lemma append_games_where_own cond q l :
  games_bound q = OwnList l →
  append_games_where cond q
  = bind_games q (OwnList (l ++ filter cond (all_games q))).
Proof.
  unfold append_games_where.
  enough (∀ xs q l, games_bound q = OwnList l →
    fold_left (λ p game, if cond game then games_append p game else p) xs q
    = bind_games q (OwnList (l ++ filter cond xs))) as H by apply H.
  clear. induction xs as [|x xs IH]; intros q l Hq.
  - cbn. rewrite app_nil_r, <- Hq. by destruct q.
  - cbn [fold_left]. rewrite filter_cons_bool. destruct (cond x).
    + unfold games_append. rewrite Hq.
      rewrite (IH _ (l ++ [x])) by done. by rewrite <- app_assoc.
    + by apply IH.
Qed.

(** The call rebinds [games], to the list of [all_games] for [all] and to a
    list of its own otherwise. *)
Lemma filterGameType_bound p type :
  filterGameType p type
  = bind_games p
      (if negb (str_in "0" type) && (lower type =? "all")%string
       then SameAsAllGames
       else OwnList (filter (selected_by type) (all_games p))).
Proof.
  unfold filterGameType.
  destruct (str_in "0" type) eqn:E0; cbn [negb andb].
  { rewrite (append_games_where_own _ _ []) by done. cbn [app]. f_equal. f_equal.
    apply filter_ext_bool. intros g. unfold selected_by. by rewrite E0. }
  destruct (lower type =? "all")%string eqn:Eall; [done|].
  assert (Hsel : ∀ g, selected_by type g
            = match class_tokens (lower type) with
              | Some tokens => list_in (time_control g) tokens
              | None => false
              end).
  { intros g. unfold selected_by. by rewrite E0, Eall. }
  unfold class_tokens in Hsel.
  destruct (lower type =? "rapid")%string.
  { rewrite (append_games_where_own _ _ []) by done. cbn [app]. f_equal. f_equal.
    apply filter_ext_bool. intros g. by rewrite Hsel, list_in_three. }
  destruct (lower type =? "bullet")%string.
  { rewrite (append_games_where_own _ _ []) by done. cbn [app]. f_equal. f_equal.
    apply filter_ext_bool. intros g. by rewrite Hsel, list_in_three. }
  destruct (lower type =? "blitz")%string.
  { rewrite (append_games_where_own _ _ []) by done. cbn [app]. f_equal. f_equal.
    apply filter_ext_bool. intros g. by rewrite Hsel, list_in_three. }
  destruct (lower type =? "daily")%string.
  { rewrite (append_games_where_own _ _ []) by done. cbn [app]. f_equal. f_equal.
    apply filter_ext_bool. intros g. by rewrite Hsel, list_in_one. }
  f_equal. f_equal. symmetry. apply filter_false_bool. intros g _. apply Hsel.
Qed.

Lemma filterGameType_games p type :
  games (filterGameType p type) = filter (selected_by type) (all_games p).
Proof.
  rewrite filterGameType_bound.
  destruct (str_in "0" type) eqn:E0; cbn [negb andb]; [done|].
  destruct (lower type =? "all")%string eqn:Eall; [|done].
  cbn. symmetry. apply filter_true_bool. intros g.
  unfold selected_by. by rewrite E0, Eall.
Qed.

Lemma reachable_current_games new_Board p :
  reachable new_Board p → current_games p = [].
Proof.
  induction 1 as [|p type _ IH]; [done|]. by rewrite filterGameType_bound.
Qed.

End FilterFacts.

(** C6, as stated, fails for a literal token without the character 0: the
    selector 15+5 denotes the game played at 15+5, and [filterGameType]
    leaves the active list empty. *)
Lemma filterGameType_literal_without_zero :
  filter (denoted_by "15+5") (all_games quick_games) = [board_of quick] ∧
  games (filterGameType quick_games "15+5") = [].
Proof. by vm_compute. Qed.

(** C6, amended: the active list after [filterGameType] is the archived
    games that the selector selects, in the order of the archive: for a
    selector that contains the character 0, the games with that time
    control; for any other selector, lowercased, every game for [all], the
    games with a time control of the class for [rapid], [bullet], [blitz]
    and [daily], and no game otherwise. *)
Theorem filterGameType_selects {J} (p : @Profile J) (type : string) :
  games (filterGameType p type) = filter (selected_by type) (all_games p).
Proof. apply filterGameType_games. Qed.

(** C7, as stated, fails for a class name with a capital: Rapid is not the
    time control of any game and is not one of the five class names, yet
    the active list is not empty afterwards. *)
Lemma filterGameType_capitalised_class :
  (∀ game, game ∈ all_games three_games → time_control game ≠ "Rapid") ∧
  ("Rapid" ∉ symbolic_classes) ∧
  games (filterGameType three_games "Rapid")
  = [board_of opens_g1f3; board_of opens_g1f3].
Proof.
  split_and!; [| |by vm_compute].
  - assert (all_games three_games
            = [board_of opens_g1f3; board_of opens_g1f3; board_of opens_d2d4])
      as -> by (by vm_compute).
    intros g Hg. rewrite !elem_of_cons, elem_of_nil in Hg.
    destruct Hg as [->|[->|[->|[]]]]; by vm_compute.
  - unfold symbolic_classes. rewrite !elem_of_cons, elem_of_nil.
    intros [?|[?|[?|[?|[?|[]]]]]]; discriminate.
Qed.

(** C7, amended: a selector that is not the time control of any archived
    game and that, lowercased, is not one of the class names leaves the
    active list empty; the call raises nothing. *)
Theorem filterGameType_unrecognised_empty {J} (p : @Profile J) (type : string) :
  (∀ game, game ∈ all_games p → time_control game ≠ type) →
  lower type ∉ symbolic_classes →
  games (filterGameType p type) = [].
Proof.
  intros Htc Hclass. rewrite filterGameType_games.
  apply filter_false_bool. intros g Hg. unfold selected_by.
  destruct (str_in "0" type).
  { apply String.eqb_neq. by apply Htc. }
  unfold symbolic_classes in Hclass.
  rewrite !not_elem_of_cons in Hclass.
  destruct Hclass as (Hall & Hrapid & Hbullet & Hblitz & Hdaily & _).
  unfold class_tokens.
  apply String.eqb_neq in Hall, Hrapid, Hbullet, Hblitz, Hdaily.
  by rewrite Hall, Hrapid, Hbullet, Hblitz, Hdaily.
Qed.

Lemma filterGameType_unrecognised_empty_witness :
  games (filterGameType three_games "Classical") = [].
Proof.
  apply (filterGameType_unrecognised_empty three_games "Classical").
  - assert (all_games three_games
            = [board_of opens_g1f3; board_of opens_g1f3; board_of opens_d2d4])
      as -> by (by vm_compute).
    intros g Hg. rewrite !elem_of_cons, elem_of_nil in Hg.
    destruct Hg as [->|[->|[->|[]]]]; by vm_compute.
  - unfold symbolic_classes. rewrite !elem_of_cons, elem_of_nil.
    intros [?|[?|[?|[?|[?|[]]]]]]; discriminate.
Defined.

(** C8: after [filterGameType], on a profile that was constructed and
    filtered any number of times, every game of the active list is one of
    the archived games and none is one of the current games. *)
Theorem filterGameType_subset {J} (new_Board : J → Board) (p : @Profile J)
    (type : string) :
  reachable new_Board p →
  (∀ game, game ∈ games (filterGameType p type) →
           game ∈ all_games (filterGameType p type)) ∧
  (∀ game, game ∈ current_games (filterGameType p type) →
           game ∉ games (filterGameType p type)).
Proof.
  intros Hp. split.
  - intros g. rewrite filterGameType_games, filterGameType_bound.
    cbn [bind_games all_games]. rewrite list_elem_of_filter. tauto.
  - intros g. rewrite (reachable_current_games new_Board (filterGameType p type))
      by (by constructor).
    by rewrite elem_of_nil.
Qed.

Lemma filterGameType_subset_witness :
  (∀ game, game ∈ games (filterGameType three_games "bullet") →
           game ∈ all_games (filterGameType three_games "bullet")) ∧
  (∀ game, game ∈ current_games (filterGameType three_games "bullet") →
           game ∉ games (filterGameType three_games "bullet")).
Proof.
  apply (filterGameType_subset board_of three_games "bullet").
  apply reachable_init.
Defined.

(** C10: [filterGameType] leaves every attribute but [games] as it was, the
    list of [all_games] included, and a later call gives what it would
    have given without the earlier one. *)
Theorem filterGameType_frame {J} (p : @Profile J) (type : string) :
  username (filterGameType p type) = username p ∧
  info (filterGameType p type) = info p ∧
  stats (filterGameType p type) = stats p ∧
  current_games_data (filterGameType p type) = current_games_data p ∧
  games_data (filterGameType p type) = games_data p ∧
  all_games (filterGameType p type) = all_games p ∧
  current_games (filterGameType p type) = current_games p ∧
  ∀ type', filterGameType (filterGameType p type) type' = filterGameType p type'.
Proof.
  rewrite filterGameType_bound. split_and!; try reflexivity.
Qed.

(** * Further properties *)

(** ** Loops *)

Lemma for_each_app {A S} (xs ys : list A) (body : A → S → result S) (s : S) :
  for_each (xs ++ ys) body s = for_each xs body s ≫= for_each ys body.
Proof.
  revert s. induction xs as [|x xs IH]; intros s; [done|].
  cbn [app for_each]. destruct (body x s); cbn [mbind result_bind]; [apply IH|done].
Qed.

Lemma for_each_keep {A S} (xs : list A) (body : A → S → result S) (s : S) :
  (∀ x, x ∈ xs → body x s = Ok s) → for_each xs body s = Ok s.
Proof.
  induction xs as [|x xs IH]; intros Hb; [done|]. cbn [for_each].
  rewrite Hb by apply list_elem_of_here. cbn [mbind result_bind].
  apply IH. intros y Hy. by apply Hb, list_elem_of_further.
Qed.

Lemma for_each_invariant {A S} (P : S → Prop) (xs : list A)
    (body : A → S → result S) :
  (∀ x s s', x ∈ xs → P s → body x s = Ok s' → P s') →
  ∀ s s', P s → for_each xs body s = Ok s' → P s'.
Proof.
  induction xs as [|x xs IH]; intros Hb s s' Hs; cbn [for_each].
  - by intros [= <-].
  - destruct (body x s) as [s1|] eqn:E; cbn [mbind result_bind]; [|done].
    apply IH.
    + intros y t t' Hy. apply Hb. by apply list_elem_of_further.
    + eapply Hb; [apply list_elem_of_here|done..].
Qed.

Lemma for_each_simulation {A S T} (R : S → T → Prop) (xs : list A)
    (body1 : A → S → result S) (body2 : A → T → result T) :
  (∀ x s t s', x ∈ xs → R s t → body1 x s = Ok s' →
               ∃ t', body2 x t = Ok t' ∧ R s' t') →
  ∀ s t s', R s t → for_each xs body1 s = Ok s' →
            ∃ t', for_each xs body2 t = Ok t' ∧ R s' t'.
Proof.
  induction xs as [|x xs IH]; intros Hb s t s' Hst; cbn [for_each].
  - intros [= <-]. by exists t.
  - destruct (body1 x s) as [s1|] eqn:E; cbn [mbind result_bind]; [|done].
    destruct (Hb x s t s1 (list_elem_of_here _ _) Hst E) as (t1 & -> & H1).
    cbn [mbind result_bind]. apply (IH); [|done].
    intros y u v u' Hy. apply Hb. by apply list_elem_of_further.
Qed.

Lemma for_each_raises {A S} (P : exn → Prop) (xs : list A)
    (body : A → S → result S) :
  (∀ x s e, body x s = Raise e → P e) →
  ∀ s e, for_each xs body s = Raise e → P e.
Proof.
  intros Hb. induction xs as [|x xs IH]; intros s e; cbn [for_each]; [done|].
  destruct (body x s) as [s1|e1] eqn:E; cbn [mbind result_bind].
  - apply IH.
  - intros [= <-]. by eapply Hb.
Qed.

Lemma getitem_Ok {A} (l : list A) i x : getitem l i = Ok x ↔ l !! i = Some x.
Proof. unfold getitem. destruct (l !! i); split; congruence. Qed.

Lemma setitem_Ok {A} (l : list A) i x l' :
  setitem l i x = Ok l' ↔ (i < length l)%nat ∧ l' = <[i:=x]> l.
Proof.
  unfold setitem. destruct (decide (i < length l)%nat) as [Hlt|Hge].
  - split; [by intros [= <-]|by intros [_ ->]].
  - split; [done|]. by intros [? _].
Qed.

(** ** [sortMovesAndFrequencies] on lists of any lengths *)

Section SortFrame.
Context {M : Type}.
Implicit Types (l pre mid post : list (M * Z)) (x y : M * Z)
  (extra moves : list M) (rest frequencies : list Z).

(** A comparison that finds the counts in order changes nothing. *)
Lemma swap_if_less_keep i j moves frequencies a b :
  frequencies !! i = Some a → frequencies !! j = Some b → b ≤ a →
  swap_if_less i j (moves, frequencies) = Ok (moves, frequencies).
Proof.
  intros Hi Hj Hle. unfold swap_if_less, getitem. rewrite Hi, Hj.
  cbn [mbind result_bind]. by destruct (Z.ltb_spec a b); [lia|].
Qed.

Lemma swap_if_less_framed pre x mid y post extra rest i j :
  i = length pre → j = (length pre + 1 + length mid)%nat →
  swap_if_less i j (framed (pre ++ x :: mid ++ y :: post) extra rest)
  = Ok (framed (if x.2 <? y.2 then pre ++ y :: mid ++ x :: post
                else pre ++ x :: mid ++ y :: post) extra rest).
Proof.
  intros Hi Hj.
  assert (Hi1 : i = length pre.*1) by (by rewrite length_fmap).
  assert (Hi2 : i = length pre.*2) by (by rewrite length_fmap).
  assert (Hj1 : j = (length pre.*1 + 1 + length mid.*1)%nat)
    by (by rewrite !length_fmap).
  assert (Hj2 : j = (length pre.*2 + 1 + length mid.*2)%nat)
    by (by rewrite !length_fmap).
  assert (Hshape : ∀ u v, framed (pre ++ u :: mid ++ v :: post) extra rest
    = (pre.*1 ++ u.1 :: mid.*1 ++ v.1 :: (post.*1 ++ extra),
       pre.*2 ++ u.2 :: mid.*2 ++ v.2 :: (post.*2 ++ rest))).
  { intros u v. unfold framed.
    rewrite !fmap_app, !fmap_cons, !fmap_app, !fmap_cons.
    by rewrite <- !app_assoc, <- !app_comm_cons, <- !app_assoc,
      <- !app_comm_cons. }
  rewrite Hshape. unfold swap_if_less.
  rewrite !(getitem_at pre.*2 x.2 _ i Hi2).
  rewrite !(getitem_beyond pre.*2 x.2 mid.*2 y.2 _ j Hj2).
  cbn [mbind result_bind].
  destruct (x.2 <? y.2); [|by rewrite Hshape].
  rewrite (setitem_at pre.*2 x.2 _ i y.2 Hi2). cbn [mbind result_bind].
  rewrite (setitem_beyond pre.*2 y.2 mid.*2 y.2 _ j x.2 Hj2).
  cbn [mbind result_bind].
  rewrite (getitem_at pre.*1 x.1 _ i Hi1).
  rewrite (getitem_beyond pre.*1 x.1 mid.*1 y.1 _ j Hj1).
  cbn [mbind result_bind].
  rewrite (setitem_at pre.*1 x.1 _ i y.1 Hi1). cbn [mbind result_bind].
  rewrite (setitem_beyond pre.*1 y.1 mid.*1 y.1 _ j x.1 Hj1).
  cbn [mbind result_bind]. by rewrite Hshape.
Qed.

Lemma inner_loop_framed post extra rest : ∀ pre x mid,
  for_each (seq (length pre + 1 + length mid) (length post))
           (swap_if_less (length pre))
           (framed (pre ++ x :: mid ++ post) extra rest)
  = Ok (framed (pre ++ (round_pairs x post).1 :: mid ++ (round_pairs x post).2)
               extra rest).
Proof.
  induction post as [|y post IH]; intros pre x mid; [done|].
  cbn [length seq for_each].
  rewrite (swap_if_less_framed pre x mid y post) by done.
  cbn [mbind result_bind round_pairs].
  destruct (x.2 <? y.2).
  - specialize (IH pre y (mid ++ [x])).
    rewrite length_app in IH. cbn [length] in IH.
    replace (length pre + 1 + (length mid + 1))%nat
      with (S (length pre + 1 + length mid)) in IH by lia.
    rewrite <- !app_assoc in IH. cbn [app] in IH. rewrite IH.
    by destruct (round_pairs y post).
  - specialize (IH pre x (mid ++ [y])).
    rewrite length_app in IH. cbn [length] in IH.
    replace (length pre + 1 + (length mid + 1))%nat
      with (S (length pre + 1 + length mid)) in IH by lia.
    rewrite <- !app_assoc in IH. cbn [app] in IH. rewrite IH.
    by destruct (round_pairs x post).
Qed.

Lemma settled_perm l l' rest : l ≡ₚ l' → settled l rest → settled l' rest.
Proof. intros Hp [Hd Hall]. split; [done|]. by rewrite <- Hp. Qed.

Lemma descending_lookup frequencies i j a b :
  descending frequencies → (i < j)%nat →
  frequencies !! i = Some a → frequencies !! j = Some b → b ≤ a.
Proof.
  intros Hd. revert i j. induction Hd as [|c cs _ IH Hall]; intros i j Hij Hi Hj.
  { by rewrite lookup_nil in Hi. }
  destruct j as [|j]; [lia|]. cbn in Hj. destruct i as [|i].
  - cbn in Hi. injection Hi as ->.
    apply (proj1 (Forall_forall _ _) Hall). by eapply list_elem_of_lookup_2.
  - cbn in Hi. apply (IH i j); [lia|done..].
Qed.

Lemma lookup_descending frequencies :
  (∀ i j a b, (i < j)%nat → frequencies !! i = Some a →
              frequencies !! j = Some b → b ≤ a) →
  descending frequencies.
Proof.
  induction frequencies as [|c cs IH]; intros H; constructor.
  - apply IH. intros i j a b Hij Hi Hj. by apply (H (S i) (S j) a b); [lia|..].
  - apply Forall_forall. intros b Hb.
    apply list_elem_of_lookup_1 in Hb as [j Hj].
    by apply (H 0%nat (S j) c b); [lia|..].
Qed.

(** A round at an entry of [l]: the entries behind it are compared as in
    [round_pairs], the settled counts are passed over. *)
Lemma sort_round_framed pre x t extra rest :
  settled (pre ++ x :: t) rest →
  sort_round (length pre) (framed (pre ++ x :: t) extra rest)
  = Ok (framed (pre ++ (round_pairs x t).1 :: (round_pairs x t).2) extra rest).
Proof.
  intros [Hd Hall]. unfold sort_round, range.
  replace (length (framed (pre ++ x :: t) extra rest).2 - (length pre + 1))%nat
    with (length t + length rest)%nat.
  2:{ unfold framed. cbn [snd]. rewrite length_app, length_fmap, length_app.
      simpl. lia. }
  rewrite seq_app, for_each_app.
  pose proof (inner_loop_framed t extra rest pre x []) as H.
  cbn [length app] in H. rewrite Nat.add_0_r in H. rewrite H. clear H.
  cbn [mbind result_bind].
  pose proof (round_pairs_perm x t) as Hp.
  pose proof (round_pairs_length x t) as Hlen.
  destruct (round_pairs x t) as [h r]. cbn [fst snd] in *.
  apply for_each_keep. intros j Hj. apply elem_of_seq in Hj.
  assert (h ∈ pre ++ x :: t) as Hh.
  { rewrite elem_of_app. right. rewrite <- Hp. apply list_elem_of_here. }
  destruct (rest !! (j - (length pre + 1 + length t))%nat) as [b|] eqn:Hb.
  2:{ apply lookup_ge_None in Hb. lia. }
  apply (swap_if_less_keep _ _ _ _ h.2 b).
  - unfold framed. rewrite lookup_app_l by (rewrite length_fmap, length_app; simpl; lia).
    by rewrite list_lookup_fmap, list_lookup_middle.
  - rewrite lookup_app_r by (rewrite length_fmap, length_app; simpl; lia).
    rewrite length_fmap, length_app. cbn [length]. rewrite <- Hb. f_equal. lia.
  - apply (proj1 (Forall_forall _ _) Hall) in Hh.
    apply (proj1 (Forall_forall _ _) Hh). by eapply list_elem_of_lookup_2.
Qed.

(** A round at a settled count changes nothing. *)
Lemma sort_round_settled l extra rest k :
  descending rest → (k < length rest)%nat →
  sort_round (length l + k) (framed l extra rest) = Ok (framed l extra rest).
Proof.
  intros Hd Hk. unfold sort_round. apply for_each_keep.
  intros j Hj. unfold range in Hj. apply elem_of_seq in Hj.
  unfold framed in *. cbn [snd] in Hj.
  rewrite length_app, length_fmap in Hj.
  destruct (rest !! k) as [a|] eqn:Ha; [|apply lookup_ge_None in Ha; lia].
  destruct (rest !! (j - length l)%nat) as [b|] eqn:Hb;
    [|apply lookup_ge_None in Hb; lia].
  apply (swap_if_less_keep _ _ _ _ a b).
  - rewrite lookup_app_r by (rewrite length_fmap; lia).
    rewrite length_fmap. rewrite <- Ha. f_equal. lia.
  - rewrite lookup_app_r by (rewrite length_fmap; lia).
    by rewrite length_fmap.
  - apply (descending_lookup rest k (j - length l) a b); [done|lia|done..].
Qed.

Lemma outer_loop_framed n extra rest : ∀ pre l,
  length l = n → settled (pre ++ l) rest →
  for_each (seq (length pre) n) sort_round (framed (pre ++ l) extra rest)
  = Ok (framed (pre ++ sort_pairs n l) extra rest).
Proof.
  induction n as [|n IH]; intros pre l Hn Hs.
  - by destruct l.
  - destruct l as [|x t]; [done|]. cbn [seq for_each sort_pairs].
    rewrite sort_round_framed by done. cbn [mbind result_bind].
    pose proof (round_pairs_perm x t) as Hp.
    pose proof (round_pairs_length x t) as Hlen.
    destruct (round_pairs x t) as [h r]. cbn [fst snd] in *.
    specialize (IH (pre ++ [h]) r).
    rewrite length_app in IH. cbn [length] in IH.
    rewrite Nat.add_1_r in IH. rewrite <- !app_assoc in IH. cbn [app] in IH.
    apply IH; [simpl in Hn; lia|].
    eapply settled_perm; [|exact Hs]. by rewrite Hp.
Qed.

(** The sort of a list of pairs with a frame: the pairs are sorted, the
    moves without a count and the settled counts stay where they are. *)
Lemma sortMovesAndFrequencies_framed l extra rest :
  settled l rest →
  sortMovesAndFrequencies (l.*1 ++ extra) (l.*2 ++ rest)
  = Ok (framed (exchange_sort l) extra rest).
Proof.
  intros Hs. unfold sortMovesAndFrequencies, range.
  rewrite Nat.sub_0_r, length_app, length_fmap, seq_app, for_each_app.
  pose proof (outer_loop_framed (length l) extra rest [] l eq_refl Hs) as H.
  cbn [length app] in H. unfold framed at 1 in H. rewrite H. clear H.
  cbn [mbind result_bind app]. fold (exchange_sort l).
  assert (length (exchange_sort l) = length l) as <-
    by (by rewrite exchange_sort_perm).
  apply for_each_keep. intros i Hi. apply elem_of_seq in Hi.
  replace i with (length (exchange_sort l) + (i - length (exchange_sort l)))%nat
    by lia.
  apply sort_round_settled; [apply Hs|lia].
Qed.

End SortFrame.

Section SortAnyLengths.
Context {M : Type}.
Implicit Types (moves : list M) (frequencies : list Z).

Lemma list_split_two {A} (l : list A) i j a b :
  (i < j)%nat → l !! i = Some a → l !! j = Some b →
  ∃ pre mid post, l = pre ++ a :: mid ++ b :: post ∧ length pre = i ∧
                  (length pre + 1 + length mid)%nat = j.
Proof.
  intros Hij Hi Hj.
  pose proof (take_drop_middle l i a Hi) as H1.
  assert (drop (S i) l !! (j - S i)%nat = Some b) as Hj'.
  { rewrite lookup_drop. rewrite <- Hj. f_equal. lia. }
  pose proof (take_drop_middle _ _ _ Hj') as H2.
  exists (take i l), (take (j - S i) (drop (S i) l)),
         (drop (S (j - S i)) (drop (S i) l)).
  pose proof (lookup_lt_Some _ _ _ Hi). pose proof (lookup_lt_Some _ _ _ Hj).
  split_and!.
  - by rewrite H2, H1.
  - rewrite length_take. lia.
  - rewrite !length_take, length_drop. lia.
Qed.

Lemma exchange_perm {A} (l : list A) i j a b :
  (i < j)%nat → l !! i = Some a → l !! j = Some b →
  <[j:=a]> (<[i:=b]> l) ≡ₚ l.
Proof.
  intros Hij Hi Hj.
  destruct (list_split_two l i j a b Hij Hi Hj)
    as (pre & mid & post & -> & Hpre & Hmid).
  rewrite <- Hpre, <- Hmid.
  rewrite insert_app_r_alt, Nat.sub_diag by done. cbn [insert list_insert].
  replace (pre ++ b :: mid ++ b :: post) with ((pre ++ b :: mid) ++ b :: post)
    by (by rewrite <- app_assoc).
  rewrite insert_app_r_alt by (rewrite length_app; simpl; lia).
  replace (length pre + 1 + length mid - length (pre ++ b :: mid))%nat with 0%nat
    by (rewrite length_app; simpl; lia).
  cbn [insert list_insert]. rewrite <- app_assoc. cbn [app].
  apply Permutation_app_head.
  rewrite <- (Permutation_middle mid post a), <- (Permutation_middle mid post b).
  apply Permutation_swap.
Qed.

(** What a comparison that returns has done. *)
Lemma swap_if_less_Ok i j moves frequencies moves' frequencies' :
  swap_if_less i j (moves, frequencies) = Ok (moves', frequencies') →
  (moves' = moves ∧ frequencies' = frequencies) ∨
  ∃ a b ma mb,
    frequencies !! i = Some a ∧ frequencies !! j = Some b ∧ a < b ∧
    moves !! i = Some ma ∧ moves !! j = Some mb ∧
    frequencies' = <[j:=a]> (<[i:=b]> frequencies) ∧
    moves' = <[j:=ma]> (<[i:=mb]> moves).
Proof.
  unfold swap_if_less, getitem, setitem.
  destruct (frequencies !! i) as [a|] eqn:Hi; [|done].
  destruct (frequencies !! j) as [b|] eqn:Hj; [|done].
  cbn [mbind result_bind].
  destruct (Z.ltb_spec a b) as [Hab|Hab]; [|intros [= <- <-]; by left].
  cbn [mbind result_bind].
  destruct (decide (i < length frequencies)%nat); [|done].
  cbn [mbind result_bind].
  destruct (decide (j < length (<[i:=b]> frequencies))%nat); [|done].
  cbn [mbind result_bind].
  destruct (moves !! i) as [ma|] eqn:Hmi; [|done].
  destruct (moves !! j) as [mb|] eqn:Hmj; [|done].
  cbn [mbind result_bind].
  destruct (decide (i < length moves)%nat); [|done]. cbn [mbind result_bind].
  destruct (decide (j < length (<[i:=mb]> moves))%nat); [|done].
  cbn [mbind result_bind]. intros [= <- <-]. right.
  by exists a, b, ma, mb.
Qed.

(** The only exception is [IndexError]. *)
Lemma swap_if_less_raises i j (st : list M * list Z) e :
  swap_if_less i j st = Raise e → e = IndexError.
Proof.
  destruct st as [moves frequencies]. unfold swap_if_less, getitem, setitem.
  repeat (first [ destruct (_ !! _) | destruct (decide _) | destruct (_ <? _) ];
          cbn [mbind result_bind]; try congruence).
Qed.

Lemma sortMovesAndFrequencies_raises moves frequencies e :
  sortMovesAndFrequencies moves frequencies = Raise e → e = IndexError.
Proof.
  revert e. apply (for_each_raises (λ e, e = IndexError)).
  intros i st. apply (for_each_raises (λ e, e = IndexError)).
  intros j st'. apply swap_if_less_raises.
Qed.

Lemma swap_if_less_kept moves frequencies i j st st' :
  (i < j)%nat → kept moves frequencies st →
  swap_if_less i j st = Ok st' → kept moves frequencies st'.
Proof.
  intros Hij (Hm & Hlen & Ht & Hd). destruct st as [ms fs], st' as [ms' fs'].
  cbn [fst snd] in *. intros Hswap.
  apply swap_if_less_Ok in Hswap
    as [[-> ->]|(a & b & ma & mb & Hi & Hj & Hab & Hmi & Hmj & -> & ->)];
    [done|].
  assert (length ms = length moves) as Hlm by (by rewrite Hm).
  pose proof (lookup_lt_Some _ _ _ Hmi). pose proof (lookup_lt_Some _ _ _ Hmj).
  split_and!; cbn [fst snd].
  - by rewrite exchange_perm.
  - by rewrite !length_insert.
  - rewrite !take_insert_lt by lia. rewrite <- Ht.
    apply exchange_perm; [done|by rewrite lookup_take_lt by lia..].
  - by rewrite !drop_insert_lt by lia.
Qed.

Lemma sortMovesAndFrequencies_kept moves frequencies st :
  sortMovesAndFrequencies moves frequencies = Ok st → kept moves frequencies st.
Proof.
  unfold sortMovesAndFrequencies.
  apply (for_each_invariant (kept moves frequencies)); [|by split_and!].
  intros i s s' _ Hs. unfold sort_round.
  apply (for_each_invariant (kept moves frequencies)); [|done].
  intros j t t' Hj. unfold range in Hj. apply elem_of_seq in Hj.
  apply swap_if_less_kept. lia.
Qed.

(** The counts are sorted as they would be with any other moves. *)
Lemma swap_if_less_counts i j moves frequencies st' :
  swap_if_less i j (moves, frequencies) = Ok st' →
  length st'.2 = length frequencies ∧
  swap_if_less i j (replicate (length frequencies) (), frequencies)
  = Ok (replicate (length frequencies) (), st'.2).
Proof.
  unfold swap_if_less, getitem, setitem.
  destruct (frequencies !! i) as [a|] eqn:Hi; [|done].
  destruct (frequencies !! j) as [b|] eqn:Hj; [|done].
  cbn [mbind result_bind].
  destruct (Z.ltb_spec a b) as [Hab|Hab]; [|by intros [= <-]].
  cbn [mbind result_bind].
  destruct (decide (i < length frequencies)%nat) as [Hli|]; [|done].
  cbn [mbind result_bind].
  destruct (decide (j < length (<[i:=b]> frequencies))%nat) as [Hlj|]; [|done].
  cbn [mbind result_bind].
  destruct (moves !! i) as [ma|]; [|done].
  destruct (moves !! j) as [mb|]; [|done].
  cbn [mbind result_bind].
  destruct (decide (i < length moves)%nat); [|done]. cbn [mbind result_bind].
  destruct (decide (j < length (<[i:=mb]> moves))%nat); [|done].
  cbn [mbind result_bind]. intros [= <-]. cbn [snd].
  rewrite length_insert in Hlj.
  rewrite !lookup_replicate_2 by done. cbn [mbind result_bind].
  split; [by rewrite !length_insert|].
  rewrite decide_True by (by rewrite length_replicate).
  cbn [mbind result_bind]. rewrite insert_replicate.
  rewrite decide_True by (by rewrite length_replicate).
  cbn [mbind result_bind]. by rewrite insert_replicate.
Qed.

Lemma sortMovesAndFrequencies_counts moves frequencies st' :
  sortMovesAndFrequencies moves frequencies = Ok st' →
  sortMovesAndFrequencies (replicate (length frequencies) ()) frequencies
  = Ok (replicate (length frequencies) (), st'.2).
Proof.
  unfold sortMovesAndFrequencies. intros Hs.
  set (R := λ (s : list M * list Z) (t : list () * list Z),
         t = (replicate (length frequencies) (), s.2) ∧
         length s.2 = length frequencies).
  destruct (for_each_simulation R (range 0 (length frequencies))
              sort_round sort_round) with (3 := Hs)
    (t := (replicate (length frequencies) (), frequencies))
    as (t' & Ht' & -> & _); [|done|done].
  intros i s t s' _ [-> Hlen] Hround. unfold sort_round in *. cbn [snd].
  destruct (for_each_simulation R (range (i + 1) (length s.2))
              (swap_if_less i) (swap_if_less i)) with (3 := Hround)
    (t := (replicate (length frequencies) (), s.2))
    as (t' & Ht' & HR); [|done|by exists t'].
  intros j [ms fs] t [ms' fs'] _ [-> Hlen'] Hswap. cbn [snd] in *.
  apply swap_if_less_counts in Hswap as [Hl Hswap]. cbn [snd] in *.
  rewrite Hlen' in Hswap. eexists. split; [exact Hswap|].
  split; [done|]. cbn [snd]. congruence.
Qed.

Lemma zip_fst_drop {A B} (l : list A) (k : list B) :
  (zip l k).*1 ++ drop (length k) l = l.
Proof.
  revert k. induction l as [|a l IH]; intros [|b k]; cbn; try done.
  by rewrite IH.
Qed.

Lemma zip_snd_drop {A B} (l : list A) (k : list B) :
  (zip l k).*2 ++ drop (length l) k = k.
Proof.
  revert k. induction l as [|a l IH]; intros [|b k]; cbn; try done.
  by rewrite IH.
Qed.

Lemma zip_lookup_Some {A B} (l : list A) (k : list B) i a b :
  zip l k !! i = Some (a, b) → l !! i = Some a ∧ k !! i = Some b.
Proof.
  revert k i. induction l as [|x l IH]; intros [|y k] [|i]; cbn; try done.
  - by intros [= -> ->].
  - apply IH.
Qed.

Lemma counts_in_place_settled moves frequencies :
  counts_in_place moves frequencies →
  settled (zip moves frequencies) (drop (length moves) frequencies).
Proof.
  intros Hc. split.
  - apply lookup_descending. intros i j a b Hij. rewrite !lookup_drop.
    apply Hc; lia.
  - apply Forall_forall. intros [m a] He. apply Forall_forall. intros b Hb.
    apply list_elem_of_lookup_1 in He as [i Hi].
    apply list_elem_of_lookup_1 in Hb as [k Hk]. rewrite lookup_drop in Hk.
    apply zip_lookup_Some in Hi as [Hm Ha].
    pose proof (lookup_lt_Some _ _ _ Hm).
    apply (Hc i (length moves + k)%nat a b); [lia|lia|done..].
Qed.

Lemma sortMovesAndFrequencies_in_place moves frequencies :
  counts_in_place moves frequencies →
  sortMovesAndFrequencies moves frequencies
  = Ok (framed (exchange_sort (zip moves frequencies))
               (drop (length frequencies) moves)
               (drop (length moves) frequencies)).
Proof.
  intros Hc.
  pose proof (sortMovesAndFrequencies_framed (zip moves frequencies)
                (drop (length frequencies) moves)
                (drop (length moves) frequencies)
                (counts_in_place_settled _ _ Hc)) as H.
  by rewrite zip_fst_drop, zip_snd_drop in H.
Qed.

Lemma sortMovesAndFrequencies_Ok_descending moves frequencies st :
  sortMovesAndFrequencies moves frequencies = Ok st →
  descending st.2 ∧ st.2 ≡ₚ frequencies.
Proof.
  intros Hs. apply sortMovesAndFrequencies_counts in Hs.
  set (us := replicate (length frequencies) ()) in *.
  assert (length us = length frequencies) as Hlen by apply length_replicate.
  pose proof (sortMovesAndFrequencies_pairs (zip us frequencies)) as Hp.
  rewrite fst_zip, snd_zip in Hp by lia. rewrite Hp in Hs.
  injection Hs as _ <-. split.
  - apply exchange_sort_descending.
  - rewrite exchange_sort_perm. by rewrite snd_zip by lia.
Qed.

End SortAnyLengths.

(** X1: With as many moves as counts the call returns the pairs in descending
    order of count: the returned lists have the lengths of the arguments,
    the pairs are the same up to their order, and the counts descend. *)
Theorem sortMovesAndFrequencies_equal_lengths {M} (moves : list M)
    (frequencies : list Z) :
  length moves = length frequencies →
  ∃ moves' frequencies',
    sortMovesAndFrequencies moves frequencies = Ok (moves', frequencies') ∧
    length moves' = length moves ∧ length frequencies' = length frequencies ∧
    zip moves' frequencies' ≡ₚ zip moves frequencies ∧
    descending frequencies'.
Proof.
  intros Hlen.
  pose proof (sortMovesAndFrequencies_pairs (zip moves frequencies)) as Hp.
  rewrite fst_zip, snd_zip in Hp by lia.
  eexists _, _. split; [exact Hp|].
  assert (length (exchange_sort (zip moves frequencies)) = length moves) as Hl.
  { rewrite exchange_sort_perm, length_zip. lia. }
  split_and!.
  - by rewrite length_fmap.
  - rewrite length_fmap. lia.
  - rewrite zip_unzip. apply exchange_sort_perm.
  - apply exchange_sort_descending.
Qed.

Lemma sortMovesAndFrequencies_equal_lengths_witness :
  ∃ moves' frequencies',
    sortMovesAndFrequencies ["g1f3"; "d2d4"; "d1h5"] [158; 26; 27]
    = Ok (moves', frequencies') ∧
    length moves' = 3%nat ∧ length frequencies' = 3%nat ∧
    zip moves' frequencies' ≡ₚ zip ["g1f3"; "d2d4"; "d1h5"] [158; 26; 27] ∧
    descending frequencies'.
Proof.
  apply (sortMovesAndFrequencies_equal_lengths
           ["g1f3"; "d2d4"; "d1h5"] [158; 26; 27]).
  reflexivity.
Defined.

(** X2: Whenever the call returns, with lists of any lengths, the returned
    counts are the given counts in descending order and the returned moves
    are the given moves in some order. *)
Theorem sortMovesAndFrequencies_returns {M} (moves : list M)
    (frequencies : list Z) moves' frequencies' :
  sortMovesAndFrequencies moves frequencies = Ok (moves', frequencies') →
  descending frequencies' ∧ frequencies' ≡ₚ frequencies ∧ moves' ≡ₚ moves.
Proof.
  intros Hs.
  destruct (sortMovesAndFrequencies_Ok_descending _ _ _ Hs) as [Hd Hp].
  destruct (sortMovesAndFrequencies_kept _ _ _ Hs) as (Hm & _).
  by split_and!.
Qed.

Lemma sortMovesAndFrequencies_returns_witness :
  descending [3; 2; 1] ∧ [3; 2; 1] ≡ₚ [3; 1; 2]
  ∧ ["a"; "c"; "b"; "d"] ≡ₚ ["a"; "b"; "c"; "d"].
Proof.
  apply (sortMovesAndFrequencies_returns ["a"; "b"; "c"; "d"] [3; 1; 2]).
  reflexivity.
Defined.

(** X3: The call raises exactly when some count at a position that [moves]
    does not have is greater than a count before it, and what it raises
    then is [IndexError]. *)
Theorem sortMovesAndFrequencies_raises_iff {M} (moves : list M)
    (frequencies : list Z) :
  (sortMovesAndFrequencies moves frequencies = Raise IndexError
   ↔ ¬ counts_in_place moves frequencies) ∧
  ((∃ st, sortMovesAndFrequencies moves frequencies = Ok st)
   ↔ counts_in_place moves frequencies).
Proof.
  assert (Hok : ∀ st, sortMovesAndFrequencies moves frequencies = Ok st →
                      counts_in_place moves frequencies).
  { intros st Hs i j a b Hij Hj Ha Hb.
    destruct (sortMovesAndFrequencies_Ok_descending _ _ _ Hs) as [Hd _].
    destruct (sortMovesAndFrequencies_kept _ _ _ Hs) as (_ & Hlen & Ht & Hdrop).
    assert (st.2 !! j = Some b) as Hb'.
    { rewrite <- (take_drop (length moves) st.2), lookup_app_r
        by (rewrite length_take; lia).
      rewrite Hdrop, lookup_drop, length_take. rewrite <- Hb. f_equal.
      pose proof (lookup_lt_Some _ _ _ Hb). lia. }
    destruct (decide (length moves ≤ i)%nat) as [Hi|Hi].
    - assert (st.2 !! i = Some a) as Ha'.
      { rewrite <- (take_drop (length moves) st.2), lookup_app_r
          by (rewrite length_take; lia).
        rewrite Hdrop, lookup_drop, length_take. rewrite <- Ha. f_equal.
        pose proof (lookup_lt_Some _ _ _ Ha). lia. }
      by apply (descending_lookup st.2 i j a b).
    - assert (a ∈ take (length moves) st.2) as Hin.
      { rewrite Ht. apply list_elem_of_lookup. exists i.
        rewrite lookup_take_lt by lia. done. }
      apply list_elem_of_lookup_1 in Hin as [i' Hi'].
      pose proof (lookup_lt_Some _ _ _ Hi') as Hlt. rewrite length_take in Hlt.
      rewrite lookup_take_lt in Hi' by lia.
      apply (descending_lookup st.2 i' j a b); [done|lia|done..]. }
  split; split.
  - intros Hr Hc. by rewrite sortMovesAndFrequencies_in_place in Hr.
  - intros Hc. destruct (sortMovesAndFrequencies moves frequencies) as [st|e] eqn:E.
    + destruct Hc. by apply (Hok st).
    + by apply sortMovesAndFrequencies_raises in E as ->.
  - intros [st Hs]. by apply (Hok st).
  - intros Hc. eexists. by apply sortMovesAndFrequencies_in_place.
Qed.

(** X4: Counts that are in descending order already come back as they are,
    with the moves as they are, whatever the number of moves. *)
Theorem sortMovesAndFrequencies_descending {M} (moves : list M)
    (frequencies : list Z) :
  descending frequencies →
  sortMovesAndFrequencies moves frequencies = Ok (moves, frequencies).
Proof.
  intros Hd.
  apply (sortMovesAndFrequencies_framed [] moves frequencies).
  split; [done|constructor].
Qed.

Lemma sortMovesAndFrequencies_descending_witness :
  sortMovesAndFrequencies ["a"] [5; 5; 2] = Ok (["a"], [5; 5; 2]).
Proof.
  apply sortMovesAndFrequencies_descending.
  repeat constructor; lia.
Defined.

(** X5: Sorting what the call has returned changes nothing. *)
Theorem sortMovesAndFrequencies_idempotent {M} (moves : list M)
    (frequencies : list Z) moves' frequencies' :
  sortMovesAndFrequencies moves frequencies = Ok (moves', frequencies') →
  sortMovesAndFrequencies moves' frequencies' = Ok (moves', frequencies').
Proof.
  intros Hs. apply sortMovesAndFrequencies_descending.
  apply (sortMovesAndFrequencies_Ok_descending _ _ _ Hs).
Qed.

Lemma sortMovesAndFrequencies_idempotent_witness :
  sortMovesAndFrequencies ["c"; "b"; "a"] [2; 1; 1]
  = Ok (["c"; "b"; "a"], [2; 1; 1]).
Proof.
  apply (sortMovesAndFrequencies_idempotent ["a"; "b"; "c"] [1; 1; 2]).
  reflexivity.
Defined.

(** X6: With more moves than counts the call sorts the moves that have a count
    and leaves the others where they are. *)
Theorem sortMovesAndFrequencies_more_moves {M} (l : list (M * Z))
    (extra : list M) :
  sortMovesAndFrequencies (l.*1 ++ extra) l.*2
  = Ok ((exchange_sort l).*1 ++ extra, (exchange_sort l).*2).
Proof.
  pose proof (sortMovesAndFrequencies_framed l extra []) as H.
  unfold framed in H. rewrite !app_nil_r in H. apply H.
  split; [constructor|]. apply Forall_forall. intros e _. constructor.
Qed.

(** ** More on the queries *)

Lemma total_perm (fs fs' : list Z) : fs ≡ₚ fs' → total fs = total fs'.
Proof.
  unfold total.
  induction 1 as [|c l l' _ IH|c c' l|l l' l'' _ IH1 _ IH2]; cbn; lia.
Qed.

Section TallyTotals.
Context `{EqDecision K}.
Implicit Types (k : K) (t : list (K * Z)) (ks : list K).

Lemma bump_total k t : total (bump k t).*2 = total t.*2 + 1.
Proof.
  unfold total. induction t as [|e t IH]; [done|]. cbn [bump].
  destruct (decide (e.1 = k)); rewrite !fmap_cons; cbn [foldr snd]; lia.
Qed.

Lemma bump_positive k t :
  Forall (λ c, 1 ≤ c) t.*2 → Forall (λ c, 1 ≤ c) (bump k t).*2.
Proof.
  induction t as [|e t IH]; intros Hall; [by repeat constructor|].
  rewrite fmap_cons in Hall. apply Forall_cons in Hall as [He Hall].
  cbn [bump]. destruct (decide (e.1 = k)); rewrite fmap_cons; cbn [snd].
  - constructor; [lia|done].
  - constructor; [done|by apply IH].
Qed.

Lemma tally_total ks : ∀ t,
  total (tally ks t).*2 = total t.*2 + Z.of_nat (length ks).
Proof.
  induction ks as [|k ks IH]; intros t.
  - cbn [tally fold_left length]. lia.
  - cbn [tally fold_left]. fold (tally ks (bump k t)).
    rewrite IH, bump_total. cbn [length]. lia.
Qed.

Lemma tally_positive ks : ∀ t,
  Forall (λ c, 1 ≤ c) t.*2 → Forall (λ c, 1 ≤ c) (tally ks t).*2.
Proof.
  induction ks as [|k ks IH]; intros t Ht; [done|].
  cbn [tally fold_left]. by apply IH, bump_positive.
Qed.

End TallyTotals.

Section QueryExtras.
Context {J : Type}.
Implicit Types (p : @Profile J) (FEN : string) (white : bool) (game : Board).

Lemma sorted_table_keys p FEN white (k : next_move_t) :
  k ∈ (sorted_table p FEN white).*1 ↔ k ∈ next_moves p FEN white.
Proof.
  unfold sorted_table. rewrite exchange_sort_perm, tally_keys, elem_of_nil.
  tauto.
Qed.

(** X7: Every game that the query counts (a game of the active list with
    the position, whose White has the username for name when White is
    selected and another name when Black is) is counted once: the counts
    that [findMovesAfterFEN] returns are at least 1 and add up to the
    number of those games, and the keys are what follows the position in
    those games. *)
Theorem findMovesAfterFEN_totals p FEN white moves frequencies :
  findMovesAfterFEN p FEN white = Ok (moves, frequencies) →
  total frequencies
  = Z.of_nat (length (filter (qualifies p FEN white) (games p))) ∧
  Forall (λ c, 1 ≤ c) frequencies ∧
  ∀ k, k ∈ moves ↔
       ∃ game, game ∈ games p ∧ qualifies p FEN white game = true ∧
               nextMoveAfter game FEN = k.
Proof.
  rewrite findMovesAfterFEN_pairs. intros [= <- <-].
  fold (sorted_table p FEN white). split_and!.
  - unfold sorted_table.
    rewrite (total_perm _ (tally (next_moves p FEN white) []).*2)
      by (by rewrite exchange_sort_perm).
    rewrite tally_total. unfold next_moves. rewrite length_fmap. cbn. lia.
  - unfold sorted_table. rewrite exchange_sort_perm.
    apply tally_positive. constructor.
  - intros k. rewrite sorted_table_keys. unfold next_moves.
    rewrite list_elem_of_fmap. split.
    + intros (g & -> & Hg). apply list_elem_of_filter in Hg as [Hq Hg].
      exists g. split_and!; [done| |done]. by apply Is_true_true.
    + intros (g & Hg & Hq & <-). exists g. split; [done|].
      apply list_elem_of_filter. split; [|done]. by rewrite Hq.
Qed.

(** X8: [mostCommonMove] raises [IndexError] exactly when the query counts
    no game: when no game of the active list has the position and a White
    whose name is the username, for White, or another name, for Black.
    What it returns is what follows the position in a game that the query
    counts. *)
Theorem mostCommonMove_raises_iff p FEN white :
  (mostCommonMove p FEN white = Raise IndexError
   ↔ ∀ game, game ∈ games p → qualifies p FEN white game = false) ∧
  (∀ m, mostCommonMove p FEN white = Ok m →
        ∃ game, game ∈ games p ∧ qualifies p FEN white game = true ∧
                nextMoveAfter game FEN = m).
Proof.
  rewrite mostCommonMove_pairs. fold (sorted_table p FEN white).
  assert (Hhead : ∀ m, getitem (sorted_table p FEN white).*1 0 = Ok m →
            ∃ game, game ∈ games p ∧ qualifies p FEN white game = true ∧
                    nextMoveAfter game FEN = m).
  { intros m Hm. apply getitem_Ok in Hm.
    apply list_elem_of_lookup_2, sorted_table_keys in Hm.
    unfold next_moves in Hm. apply list_elem_of_fmap in Hm as (g & -> & Hg).
    apply list_elem_of_filter in Hg as [Hq Hg]. exists g.
    split_and!; [done| |done]. by apply Is_true_true. }
  split; [split|done].
  - intros Hr g Hg. destruct (qualifies p FEN white g) eqn:Hq; [|done].
    assert (nextMoveAfter g FEN ∈ (sorted_table p FEN white).*1) as Hin.
    { apply sorted_table_keys. unfold next_moves. apply list_elem_of_fmap.
      exists g. split; [done|]. apply list_elem_of_filter.
      split; [by rewrite Hq|done]. }
    unfold getitem in Hr. destruct (sorted_table p FEN white).*1; [|done].
    by apply elem_of_nil in Hin.
  - intros Hno. pose proof (no_qualifying_game p FEN white Hno) as (_ & _ & Hr).
    by rewrite mostCommonMove_pairs in Hr.
Qed.

(** X9: The text of [moveTable] starts with the line of the move that
    [mostCommonMove] returns, and no count of the table is greater than
    the count on that line. *)
Theorem moveTable_first_line p FEN white m :
  mostCommonMove p FEN white = Ok m →
  ∃ c rest,
    moveTable p FEN white = Ok (table_line m c +:+ rest) ∧
    ∀ moves frequencies,
      findMovesAfterFEN p FEN white = Ok (moves, frequencies) →
      recorded_count m moves frequencies = c ∧
      ∀ c', c' ∈ frequencies → c' ≤ c.
Proof.
  rewrite mostCommonMove_pairs, moveTable_pairs, findMovesAfterFEN_pairs.
  fold (sorted_table p FEN white).
  pose proof (sorted_table_NoDup p FEN white) as Hnd.
  pose proof (exchange_sort_descending (tally (next_moves p FEN white) []))
    as Hd. fold (sorted_table p FEN white) in Hd.
  destruct (sorted_table p FEN white) as [|[m' c] t]; [done|].
  cbn. intros [= ->]. exists c, (table_text t). split; [done|].
  intros moves frequencies [= <- <-]. split.
  - apply (recorded_count_elem ((m, c) :: t)); [done|apply list_elem_of_here].
  - intros c' Hc'. by apply (descending_head_max c t.*2).
Qed.


(** X11: The table of [findMovesAfterFEN] is the one obtained by recording the
    next move of each game that [findGamesWithFENandColor] returns. *)
Theorem frequency_table_by_color p FEN white :
  frequency_table p FEN white
  = for_each (findGamesWithFENandColor p FEN white)
             (λ game, record_move (getNextMove game)) ([], []).
Proof.
  unfold frequency_table. rewrite count_next_moves.
  rewrite findGamesWithFENandColor_filter. unfold next_moves.
  generalize (filter (qualifies p FEN white) (games p)).
  generalize (([], []) : list next_move_t * list Z).
  intros st l. revert st. induction l as [|g l IH]; intros st; [done|].
  rewrite !fmap_cons. cbn [for_each]. unfold nextMoveAfter at 1.
  destruct (record_move _ st); cbn [mbind result_bind]; [apply IH|done].
Qed.

End QueryExtras.

Lemma findMovesAfterFEN_totals_witness :
  total [2; 1]
  = Z.of_nat (length (filter (qualifies three_games start_fen true)
                             (games three_games))) ∧
  Forall (λ c, 1 ≤ c) [2; 1] ∧
  ∀ k, k ∈ [Some g1f3; Some d2d4] ↔
       ∃ game, game ∈ games three_games ∧
               qualifies three_games start_fen true game = true ∧
               nextMoveAfter game start_fen = k.
Proof.
  apply (findMovesAfterFEN_totals three_games start_fen true
           [Some g1f3; Some d2d4] [2; 1]).
  by vm_compute.
Defined.

Lemma moveTable_first_line_witness :
  ∃ c rest,
    moveTable three_games start_fen true
    = Ok (table_line (Some g1f3) c +:+ rest) ∧
    ∀ moves frequencies,
      findMovesAfterFEN three_games start_fen true = Ok (moves, frequencies) →
      recorded_count (Some g1f3) moves frequencies = c ∧
      ∀ c', c' ∈ frequencies → c' ≤ c.
Proof.
  apply (moveTable_first_line three_games start_fen true (Some g1f3)).
  by vm_compute.
Defined.

(** ** More on [filterGameType] and [__init__] *)

Lemma lower_ascii_idemp (c : ascii) : lower_ascii (lower_ascii c) = lower_ascii c.
Proof. destruct c as [[] [] [] [] [] [] [] []]; by vm_compute. Qed.

Lemma lower_idemp (s : string) : lower (lower s) = lower s.
Proof.
  induction s as [|c s IH]; [done|]. cbn [lower].
  by rewrite lower_ascii_idemp, IH.
Qed.

Lemma class_tokens_names name tokens :
  class_tokens name = Some tokens →
  name ∈ symbolic_classes ∧ lower name = name ∧ str_in "0" name = false ∧
  Forall (λ t, str_in "0" t = true) tokens.
Proof.
  unfold class_tokens, symbolic_classes.
  destruct (String.eqb_spec name "rapid") as [->|_].
  { intros [= <-]. split_and!; [|done..|by repeat constructor].
    rewrite !elem_of_cons. auto. }
  destruct (String.eqb_spec name "bullet") as [->|_].
  { intros [= <-]. split_and!; [|done..|by repeat constructor].
    rewrite !elem_of_cons. auto. }
  destruct (String.eqb_spec name "blitz") as [->|_].
  { intros [= <-]. split_and!; [|done..|by repeat constructor].
    rewrite !elem_of_cons. auto. }
  destruct (String.eqb_spec name "daily") as [->|_]; [|done].
  intros [= <-]. split_and!; [|done..|by repeat constructor].
  rewrite !elem_of_cons. auto 10.
Qed.

Section FilterExtras.
Context {J : Type}.
Implicit Types (p : @Profile J) (type : string) (game : Board).

Lemma selected_by_lower type type' game :
  str_in "0" type = false → lower type = lower type' →
  selected_by type game = selected_by type' game.
Proof.
  intros Hz Hl. unfold selected_by.
  assert (str_in "0" type' = false) as ->
    by (by rewrite <- str_in_zero_lower, <- Hl, str_in_zero_lower).
  by rewrite Hz, Hl.
Qed.

(** X13: Selectors without the character 0 are compared without regard to
    case: two that agree once lowercased select the same games. *)
Theorem filterGameType_case_insensitive p type type' :
  str_in "0" type = false → lower type = lower type' →
  filterGameType p type = filterGameType p type'.
Proof.
  intros Hz Hl. rewrite !filterGameType_bound.
  assert (str_in "0" type' = false) as Hz'
    by (by rewrite <- str_in_zero_lower, <- Hl, str_in_zero_lower).
  rewrite Hz, Hz', Hl. cbn [negb andb].
  rewrite (filter_ext_bool (selected_by type) (selected_by type')); [done|].
  intros g. by apply selected_by_lower.
Qed.

Lemma selected_by_class name tokens game :
  class_tokens name = Some tokens →
  selected_by name game = list_in (time_control game) tokens.
Proof.
  intros Hc. destruct (class_tokens_names _ _ Hc) as (Hn & Hl & Hz & _).
  unfold selected_by. rewrite Hz, Hl, Hc.
  destruct (String.eqb_spec name "all") as [->|]; [|done].
  by vm_compute in Hc.
Qed.

Lemma selected_by_token t game :
  str_in "0" t = true → selected_by t game = (time_control game =? t)%string.
Proof. intros Hz. unfold selected_by. by rewrite Hz. Qed.

(** X14: The games of a class are the games of its time controls: a game is in
    the active list after the class name has been given iff it is in the
    list that one of the time controls of the class gives. *)
Theorem filterGameType_class_union p name tokens game :
  class_tokens name = Some tokens →
  game ∈ games (filterGameType p name)
  ↔ ∃ t, t ∈ tokens ∧ game ∈ games (filterGameType p t).
Proof.
  intros Hc. destruct (class_tokens_names _ _ Hc) as (_ & _ & _ & Hz).
  rewrite filterGameType_games, list_elem_of_filter.
  rewrite (selected_by_class _ _ _ Hc). unfold list_in.
  rewrite bool_decide_spec. split.
  - intros [Hin Hg]. exists (time_control game). split; [done|].
    rewrite filterGameType_games, list_elem_of_filter. split; [|done].
    rewrite selected_by_token
      by (by apply (proj1 (Forall_forall _ _) Hz)).
    by rewrite String.eqb_refl.
  - intros (t & Ht & Hg).
    rewrite filterGameType_games, list_elem_of_filter in Hg.
    destruct Hg as [Hsel Hg]. split; [|done].
    rewrite selected_by_token in Hsel
      by (by apply (proj1 (Forall_forall _ _) Hz)).
    apply Is_true_true, String.eqb_eq in Hsel. by rewrite Hsel.
Qed.

(** X15: No game is in two classes. *)
Theorem filterGameType_classes_disjoint p name name' tokens tokens' game :
  class_tokens name = Some tokens → class_tokens name' = Some tokens' →
  name ≠ name' →
  game ∈ games (filterGameType p name) →
  game ∉ games (filterGameType p name').
Proof.
  intros Hc Hc' Hne. rewrite !filterGameType_games, !list_elem_of_filter.
  rewrite (selected_by_class _ _ _ Hc), (selected_by_class _ _ _ Hc').
  unfold list_in. rewrite !bool_decide_spec. intros [Hin _] [Hin' _].
  revert Hc Hc' Hin Hin'. generalize (time_control game). intros tc.
  unfold class_tokens.
  repeat match goal with
         | |- context [String.eqb ?a ?b] =>
             destruct (String.eqb_spec a b); subst
         end; try done; intros [= <-] [= <-];
    rewrite !elem_of_cons, !elem_of_nil; intros Hin Hin';
    repeat match goal with
           | H : _ ∨ _ |- _ => destruct H
           | H : False |- _ => destruct H
           end; subst; discriminate.
Qed.

(** X16: A profile that has just been constructed analyses every archived game:
    [all_games] holds the board of each record of [games_data], in order,
    [games] is that list, and [current_games] is empty whatever
    [current_games_data] holds. *)
Theorem Profile_init_games (new_Board : J → Board) u (i s : J) cgd gd :
  all_games (Profile_init new_Board u i s cgd gd) = new_Board <$> gd ∧
  games (Profile_init new_Board u i s cgd gd) = new_Board <$> gd ∧
  current_games (Profile_init new_Board u i s cgd gd) = [].
Proof.
  assert (H : ∀ acc, fold_left (λ acc r, acc ++ [new_Board r]) gd acc
                     = acc ++ (new_Board <$> gd)).
  { induction gd as [|g gd' IH]; intros acc; [by rewrite app_nil_r|].
    cbn [fold_left]. by rewrite IH, <- app_assoc. }
  unfold Profile_init, games. cbn. by rewrite H.
Qed.

(** X12: After [filterGameType], the count that [findMovesAfterFEN] records for
    a move is the number of archived games that the selector selects,
    that contain the position, whose White has the username for name when
    White is selected and another name when Black is, and that continue
    with the move. *)
Theorem findMovesAfterFEN_after_filter p type FEN white (m : Move) :
  ∃ moves frequencies,
    findMovesAfterFEN (filterGameType p type) FEN white
    = Ok (moves, frequencies) ∧
    recorded_count (Some m) moves frequencies
    = Z.of_nat (length (filter
        (λ game, selected_by type game && qualifies p FEN white game
                 && bool_decide (nextMoveAfter game FEN = Some m))
        (all_games p))).
Proof.
  eexists _, _. split; [apply findMovesAfterFEN_pairs|].
  fold (sorted_table (filterGameType p type) FEN white). cbn [unzip].
  rewrite sorted_table_count. unfold next_moves.
  rewrite length_filter_fmap, filterGameType_games. f_equal.
  assert (Hq : ∀ g, qualifies (filterGameType p type) FEN white g
                    = qualifies p FEN white g).
  { intros g. by rewrite filterGameType_bound. }
  rewrite (filter_ext_bool _
    (λ g, qualifies p FEN white g
          && bool_decide (nextMoveAfter g FEN = Some m)))
    by (intros g; by rewrite Hq).
  generalize (all_games p). intros l.
  induction l as [|g l IH]; [done|].
  rewrite !filter_cons_bool.
  destruct (selected_by type g); cbn [andb]; [|done].
  rewrite filter_cons_bool.
  destruct (_ && _); cbn [length]; by rewrite IH.
Qed.

End FilterExtras.

Lemma filterGameType_case_insensitive_witness :
  filterGameType three_games "Rapid" = filterGameType three_games "RAPID".
Proof.
  apply (filterGameType_case_insensitive three_games "Rapid" "RAPID");
    reflexivity.
Defined.

Lemma filterGameType_class_union_witness :
  board_of opens_g1f3 ∈ games (filterGameType three_games "rapid")
  ↔ ∃ t, t ∈ ["600"; "900+10"; "1800"] ∧
         board_of opens_g1f3 ∈ games (filterGameType three_games t).
Proof.
  apply (filterGameType_class_union three_games "rapid"
           ["600"; "900+10"; "1800"] (board_of opens_g1f3)).
  reflexivity.
Defined.

Lemma filterGameType_classes_disjoint_witness :
  board_of opens_g1f3 ∉ games (filterGameType three_games "blitz").
Proof.
  apply (filterGameType_classes_disjoint three_games "rapid" "blitz"
           ["600"; "900+10"; "1800"] ["180"; "180+2"; "300"]
           (board_of opens_g1f3)); [reflexivity|reflexivity|discriminate|].
  assert (games (filterGameType three_games "rapid")
          = [board_of opens_g1f3; board_of opens_g1f3]) as ->
    by (by vm_compute).
  apply list_elem_of_here.
Defined.

(** ** The statistics *)

Section StatsFacts.

Import Api.

Context {F : Type} {float_ops : FloatOps F}.

Implicit Types (d inner items : list (string * json F)).
Implicit Types (v w result stats numerator denominator : json F).

Lemma outcome_bind_Returns {A B} (m : outcome A) (k : A → outcome B) b :
  (x ← m; k x) = Returns b → ∃ a, m = Returns a ∧ k a = Returns b.
Proof. destruct m as [a|e]; [by exists a | done]. Qed.

Lemma dict_get_set k v d : dict_get k (dict_set k v d) = Some v.
Proof.
  induction d as [|[k' v'] d IH]; cbn [dict_set dict_get].
  - by rewrite String.eqb_refl.
  - destruct (k' =? k)%string eqn:E; cbn [dict_get]; by rewrite E.
Qed.

Lemma dict_set_set k v w d : dict_set k w (dict_set k v d) = dict_set k w d.
Proof.
  induction d as [|[k' v'] d IH]; cbn [dict_set].
  - by rewrite String.eqb_refl.
  - destruct (k' =? k)%string eqn:E; cbn [dict_set]; rewrite E; [done|].
    by rewrite IH.
Qed.

Lemma dict_set_get k v d : dict_get k d = Some v → dict_set k v d = d.
Proof.
  induction d as [|[k' v'] d IH]; cbn [dict_set dict_get]; [done|].
  destruct (k' =? k)%string; [by intros [= ->] | by intros ->%IH].
Qed.

Lemma assign2_set name key v inner d :
  assign2 (JDict (dict_set name (JDict inner) d)) name key v
  = Returns (JDict (dict_set name (JDict (dict_set key v inner)) d)).
Proof.
  unfold assign2, py_getitem. rewrite dict_get_set.
  cbn [mbind outcome_bind py_setitem]. by rewrite dict_set_set.
Qed.

Lemma get2_set name key inner d :
  get2 (JDict (dict_set name (JDict inner) d)) name key
  = py_getitem (JDict inner) key.
Proof. unfold get2, py_getitem. by rewrite dict_get_set. Qed.

Ltac run :=
  cbn [mbind outcome_bind dict_set dict_get py_getitem
       String.eqb Ascii.eqb Bool.eqb andb].

Lemma category_stats_set result name category flag d :
  category_stats result name category flag
    (JDict (dict_set name (JDict []) d))
  = items ← category_items result category flag;
    Returns (JDict (dict_set name (JDict items) d)).
Proof.
  unfold category_stats, category_items, copy_field, sum_played, set_pct.
  destruct (get3 result category "last" "rating") as [rating|e]; [|done].
  run. rewrite assign2_set. run.
  destruct (get3 result category "record" "win") as [won|e]; [|done].
  run. rewrite assign2_set. run.
  destruct (get3 result category "record" "loss") as [lost|e]; [|done].
  run. rewrite assign2_set. run.
  destruct (get3 result category "record" "draw") as [drawn|e]; [|done].
  run. rewrite assign2_set. run.
  rewrite !get2_set. run.
  destruct (py_add won lost) as [s|e]; [|done]. run.
  destruct (py_add s drawn) as [played|e]; [|done]. run.
  rewrite assign2_set. run. rewrite !get2_set. run.
  destruct (calc_pct won played) as [pct_won|e]; [|done]. run.
  rewrite assign2_set. run.
  destruct flag; [|done].
  rewrite !get2_set. run.
  destruct (calc_pct lost played) as [pct_lost|e]; [|done]. run.
  rewrite assign2_set. run. rewrite !get2_set. run.
  destruct (calc_pct drawn played) as [pct_drawn|e]; [|done]. run.
  by rewrite assign2_set.
Qed.

Lemma player_stats_items result :
  player_stats result
  = daily ← category_items result "chess_daily" true;
    rapid ← category_items result "chess_rapid" true;
    bullet ← category_items result "chess_bullet" false;
    blitz ← category_items result "chess_blitz" true;
    Returns (JDict [("daily", JDict daily); ("rapid", JDict rapid);
                 ("bullet", JDict bullet); ("blitz", JDict blitz)]).
Proof.
  unfold player_stats.
  cbn [mbind outcome_bind py_setitem dict_set String.eqb Ascii.eqb Bool.eqb
       andb].
  pose proof (category_stats_set result "daily" "chess_daily" true
             [("daily", JDict []); ("rapid", JDict []); ("bullet", JDict []);
              ("blitz", JDict [])]) as E.
  cbn [dict_set String.eqb Ascii.eqb Bool.eqb andb] in E. rewrite E. clear E.
  destruct (category_items result "chess_daily" true) as [daily|e]; [|done].
  run.
  pose proof (category_stats_set result "rapid" "chess_rapid" true
             [("daily", JDict daily); ("rapid", JDict []);
              ("bullet", JDict []); ("blitz", JDict [])]) as E.
  cbn [dict_set String.eqb Ascii.eqb Bool.eqb andb] in E. rewrite E. clear E.
  destruct (category_items result "chess_rapid" true) as [rapid|e]; [|done].
  run.
  pose proof (category_stats_set result "bullet" "chess_bullet" false
             [("daily", JDict daily); ("rapid", JDict rapid);
              ("bullet", JDict []); ("blitz", JDict [])]) as E.
  cbn [dict_set String.eqb Ascii.eqb Bool.eqb andb] in E. rewrite E. clear E.
  destruct (category_items result "chess_bullet" false) as [bullet|e]; [|done].
  run.
  pose proof (category_stats_set result "blitz" "chess_blitz" true
             [("daily", JDict daily); ("rapid", JDict rapid);
              ("bullet", JDict bullet); ("blitz", JDict [])]) as E.
  cbn [dict_set String.eqb Ascii.eqb Bool.eqb andb] in E. rewrite E. clear E.
  by destruct (category_items result "chess_blitz" true) as [blitz|e].
Qed.

Lemma category_items_Returns result category flag items :
  category_items result category flag = Returns items →
  ∃ rating won lost drawn s played pct_won,
    get3 result category "last" "rating" = Returns rating ∧
    get3 result category "record" "win" = Returns won ∧
    get3 result category "record" "loss" = Returns lost ∧
    get3 result category "record" "draw" = Returns drawn ∧
    py_add won lost = Returns s ∧
    py_add s drawn = Returns played ∧
    calc_pct won played = Returns pct_won ∧
    if flag then
      ∃ pct_lost pct_drawn,
        calc_pct lost played = Returns pct_lost ∧
        calc_pct drawn played = Returns pct_drawn ∧
        items = [("rating", rating); ("won", won); ("lost", lost);
                 ("drawn", drawn); ("played", played); ("pct-won", pct_won);
                 ("pct-lost", pct_lost); ("pct-drawn", pct_drawn)]
    else
      items = [("rating", rating); ("won", won); ("lost", lost);
               ("drawn", drawn); ("played", played); ("pct-won", pct_won)].
Proof.
  unfold category_items. intros Hitems.
  apply outcome_bind_Returns in Hitems as (rating & ? & Hitems).
  apply outcome_bind_Returns in Hitems as (won & ? & Hitems).
  apply outcome_bind_Returns in Hitems as (lost & ? & Hitems).
  apply outcome_bind_Returns in Hitems as (drawn & ? & Hitems).
  apply outcome_bind_Returns in Hitems as (s & ? & Hitems).
  apply outcome_bind_Returns in Hitems as (played & ? & Hitems).
  apply outcome_bind_Returns in Hitems as (pct_won & ? & Hitems).
  exists rating, won, lost, drawn, s, played, pct_won.
  split_and!; try done.
  destruct flag; [|by injection Hitems].
  apply outcome_bind_Returns in Hitems as (pct_lost & ? & Hitems).
  apply outcome_bind_Returns in Hitems as (pct_drawn & ? & Hitems).
  exists pct_lost, pct_drawn. split_and!; try done. by injection Hitems.
Qed.

Lemma player_stats_Returns result stats :
  player_stats result = Returns stats →
  ∃ daily rapid bullet blitz,
    category_items result "chess_daily" true = Returns daily ∧
    category_items result "chess_rapid" true = Returns rapid ∧
    category_items result "chess_bullet" false = Returns bullet ∧
    category_items result "chess_blitz" true = Returns blitz ∧
    stats = JDict [("daily", JDict daily); ("rapid", JDict rapid);
                   ("bullet", JDict bullet); ("blitz", JDict blitz)].
Proof.
  rewrite player_stats_items. intros Hstats.
  apply outcome_bind_Returns in Hstats as (daily & ? & Hstats).
  apply outcome_bind_Returns in Hstats as (rapid & ? & Hstats).
  apply outcome_bind_Returns in Hstats as (bullet & ? & Hstats).
  apply outcome_bind_Returns in Hstats as (blitz & ? & Hstats).
  exists daily, rapid, bullet, blitz. split_and!; try done.
  by injection Hstats.
Qed.

(** What one category of a returned [stats_dict] holds. *)
Lemma player_stats_category result stats name category :
  player_stats result = Returns stats →
  (name, category) ∈ categories →
  ∃ items,
    py_getitem stats name = Returns (JDict items) ∧
    category_items result category (negb (name =? "bullet")%string)
    = Returns items.
Proof.
  intros (daily & rapid & bullet & blitz & ? & ? & ? & ? & ->)%player_stats_Returns.
  unfold categories. rewrite !elem_of_cons, elem_of_nil.
  intros [[= -> ->]|[[= -> ->]|[[= -> ->]|[[= -> ->]|[]]]]].
  - by exists daily.
  - by exists rapid.
  - by exists bullet.
  - by exists blitz.
Qed.

Lemma get2_items stats name items key :
  py_getitem stats name = Returns (JDict items) →
  get2 stats name key = py_getitem (JDict items) key.
Proof. unfold get2. by intros ->. Qed.

Lemma calc_pct_int n m :
  calc_pct (JInt n) (JInt m)
  = if m =? 0 then Returns (JInt 0)
    else match int_true_div n m, float_of_int 100 with
         | Some q, Some h => Returns (JFloat (float_round (float_mul q h) 2))
         | _, _ => Raises OverflowError
         end.
Proof.
  unfold calc_pct, py_is_zero, py_truediv, to_float. cbn [as_number].
  destruct (m =? 0); [done|].
  destruct (int_true_div n m); [|done].
  cbn [mbind outcome_bind]. by destruct (float_of_int 100).
Qed.

(** X17: the returned [stats_dict] has the keys daily, rapid, bullet and
    blitz, in this order.  The dicts of daily, rapid and blitz have the
    keys rating, won, lost, drawn, played, pct-won, pct-lost and pct-drawn;
    the dict of bullet has the first six only, neither pct-lost nor
    pct-drawn. *)
Theorem retrieve_player_stats_keys result stats :
  player_stats result = Returns stats →
  ∃ daily rapid bullet blitz,
    stats = JDict [("daily", JDict daily); ("rapid", JDict rapid);
                   ("bullet", JDict bullet); ("blitz", JDict blitz)] ∧
    daily.*1 = ["rating"; "won"; "lost"; "drawn"; "played"; "pct-won";
                "pct-lost"; "pct-drawn"] ∧
    rapid.*1 = daily.*1 ∧
    blitz.*1 = daily.*1 ∧
    bullet.*1 = ["rating"; "won"; "lost"; "drawn"; "played"; "pct-won"].
Proof.
  intros (daily & rapid & bullet & blitz & Hd & Hr & Hb & Hz & ->)
    %player_stats_Returns.
  exists daily, rapid, bullet, blitz.
  apply category_items_Returns
    in Hd as (? & ? & ? & ? & ? & ? & ? & _ & _ & _ & _ & _ & _ & _
              & ? & ? & _ & _ & ->).
  apply category_items_Returns
    in Hr as (? & ? & ? & ? & ? & ? & ? & _ & _ & _ & _ & _ & _ & _
              & ? & ? & _ & _ & ->).
  apply category_items_Returns
    in Hb as (? & ? & ? & ? & ? & ? & ? & _ & _ & _ & _ & _ & _ & _ & ->).
  apply category_items_Returns
    in Hz as (? & ? & ? & ? & ? & ? & ? & _ & _ & _ & _ & _ & _ & _
              & ? & ? & _ & _ & ->).
  by split_and!.
Qed.

(** X18: in a returned [stats_dict], for each of daily, rapid, bullet and
    blitz: rating, won, lost and drawn are the values of last.rating,
    record.win, record.loss and record.draw of the category in the
    response, played is [won + lost + drawn], pct-won is
    [calc_pct(won, played)] and, except for bullet, pct-lost and pct-drawn
    are [calc_pct(lost, played)] and [calc_pct(drawn, played)]. *)
Theorem retrieve_player_stats_values result stats name category :
  player_stats result = Returns stats →
  (name, category) ∈ categories →
  ∃ rating won lost drawn s played,
    get3 result category "last" "rating" = Returns rating ∧
    get2 stats name "rating" = Returns rating ∧
    get3 result category "record" "win" = Returns won ∧
    get2 stats name "won" = Returns won ∧
    get3 result category "record" "loss" = Returns lost ∧
    get2 stats name "lost" = Returns lost ∧
    get3 result category "record" "draw" = Returns drawn ∧
    get2 stats name "drawn" = Returns drawn ∧
    py_add won lost = Returns s ∧
    py_add s drawn = Returns played ∧
    get2 stats name "played" = Returns played ∧
    get2 stats name "pct-won" = calc_pct won played ∧
    (name ≠ "bullet" →
     get2 stats name "pct-lost" = calc_pct lost played ∧
     get2 stats name "pct-drawn" = calc_pct drawn played).
Proof.
  intros Hstats Hin.
  destruct (player_stats_category _ _ _ _ Hstats Hin) as (items & Hget & Hitems).
  apply category_items_Returns in Hitems
    as (rating & won & lost & drawn & s & played & pct_won
        & ? & ? & ? & ? & ? & ? & Hwon & Hrest).
  exists rating, won, lost, drawn, s, played.
  rewrite !(get2_items _ _ _ _ Hget).
  destruct (name =? "bullet")%string eqn:Hname; cbn [negb] in Hrest.
  - subst items. run. split_and!; try done.
    by apply String.eqb_eq in Hname.
  - destruct Hrest as (pct_lost & pct_drawn & ? & ? & ->). run.
    by split_and!.
Qed.

(** X19: if, for one of the categories chess_daily, chess_rapid,
    chess_bullet and chess_blitz, the response lacks last.rating,
    record.win, record.loss or record.draw, as it does when the whole
    category is absent, then no [stats_dict] is returned: an exception is
    raised. *)
Theorem retrieve_player_stats_incomplete_response
    result name category group field e0 :
  (name, category) ∈ categories →
  (group, field) ∈ [("last", "rating"); ("record", "win");
                    ("record", "loss"); ("record", "draw")] →
  get3 result category group field = Raises e0 →
  ∃ e, player_stats result = Raises e.
Proof.
  intros Hin Hfield Hget.
  destruct (player_stats result) as [stats|e] eqn:Hstats; [|by exists e].
  destruct (player_stats_category _ _ _ _ Hstats Hin) as (items & _ & Hitems).
  apply category_items_Returns in Hitems
    as (? & ? & ? & ? & ? & ? & ? & ? & ? & ? & ? & _).
  revert Hfield. rewrite !elem_of_cons, elem_of_nil.
  intros [[= -> ->]|[[= -> ->]|[[= -> ->]|[[= -> ->]|[]]]]]; congruence.
Qed.

(** X20: for a category whose record in the response holds the ints [w],
    [l] and [d], played is the int [w + l + d]; when that is 0, pct-won is
    the int 0, and no division takes place; otherwise pct-won is the float
    [round(w / (w + l + d) * 100, 2)]. *)
Theorem retrieve_player_stats_integer_record
    result stats name category (w l d : Z) :
  player_stats result = Returns stats →
  (name, category) ∈ categories →
  get3 result category "record" "win" = Returns (JInt w) →
  get3 result category "record" "loss" = Returns (JInt l) →
  get3 result category "record" "draw" = Returns (JInt d) →
  get2 stats name "played" = Returns (JInt (w + l + d)) ∧
  (w + l + d = 0 → get2 stats name "pct-won" = Returns (JInt 0)) ∧
  (w + l + d ≠ 0 →
   ∃ q hundred,
     int_true_div w (w + l + d) = Some q ∧
     float_of_int 100 = Some hundred ∧
     get2 stats name "pct-won"
     = Returns (JFloat (float_round (float_mul q hundred) 2))).
Proof.
  intros Hstats Hin Hw Hl Hd.
  destruct (player_stats_category _ _ _ _ Hstats Hin) as (items & Hget & Hitems).
  apply category_items_Returns in Hitems
    as (rating & won & lost & drawn & s & played & pct_won
        & ? & ? & ? & ? & Hs & Hplayed & Hwon & Hrest).
  assert (won = JInt w) as -> by congruence.
  assert (lost = JInt l) as -> by congruence.
  assert (drawn = JInt d) as -> by congruence.
  injection Hs as <-. injection Hplayed as <-.
  rewrite calc_pct_int in Hwon.
  rewrite !(get2_items _ _ _ _ Hget).
  assert (py_getitem (JDict items) "played" = Returns (JInt (w + l + d))
          ∧ py_getitem (JDict items) "pct-won" = Returns pct_won) as [-> ->].
  { destruct (negb _); [destruct Hrest as (? & ? & _ & _ & ->)|subst items];
      by run. }
  split; [done|]. split.
  - intros Hzero. rewrite Hzero in Hwon. by injection Hwon as <-.
  - intros Hzero. apply Z.eqb_neq in Hzero. rewrite Hzero in Hwon.
    destruct (int_true_div w (w + l + d)) as [q|]; [|done].
    destruct (float_of_int 100) as [hundred|]; [|done].
    exists q, hundred. by injection Hwon as <-.
Qed.

(** X21: [calc_pct] never raises [ZeroDivisionError].  Of numbers it
    raises at most [OverflowError]; [TypeError] is raised only when the
    numerator or the denominator is no number.  (The float of an int is
    zero only for the int 0.) *)
Theorem calc_pct_errors numerator denominator e :
  (∀ n x, float_of_int n = Some x → float_is_zero x = (n =? 0)) →
  calc_pct numerator denominator = Raises e →
  e = OverflowError ∨
  e = TypeError ∧ (as_number numerator = None ∨ as_number denominator = None).
Proof.
  intros Hfloat. unfold calc_pct, py_is_zero, py_truediv, to_float.
  destruct (as_number numerator) as [[n|x]|],
           (as_number denominator) as [[m|y]|];
    cbn [mbind outcome_bind];
    repeat (case_match; cbn [mbind outcome_bind]);
    intros [= <-]; auto.
  all: exfalso;
    repeat match goal with
           | Hx : float_of_int _ = Some _ |- _ => apply Hfloat in Hx
           end; congruence.
Qed.

End StatsFacts.

Section SampleStatsFacts.

Import Api SampleStats.

#[local] Existing Instance fixed_point.

Example player_stats_response : player_stats response = Returns stats.
Proof. reflexivity. Qed.

Example player_stats_without_daily :
  player_stats response_without_daily = Raises (KeyError "chess_daily").
Proof. reflexivity. Qed.

Lemma retrieve_player_stats_keys_witness :
  ∃ daily rapid bullet blitz,
    stats = JDict [("daily", JDict daily); ("rapid", JDict rapid);
                   ("bullet", JDict bullet); ("blitz", JDict blitz)] ∧
    daily.*1 = ["rating"; "won"; "lost"; "drawn"; "played"; "pct-won";
                "pct-lost"; "pct-drawn"] ∧
    rapid.*1 = daily.*1 ∧
    blitz.*1 = daily.*1 ∧
    bullet.*1 = ["rating"; "won"; "lost"; "drawn"; "played"; "pct-won"].
Proof. apply (retrieve_player_stats_keys response stats). reflexivity. Defined.

Lemma retrieve_player_stats_values_witness :
  ∃ rating won lost drawn s played,
    get3 response "chess_rapid" "last" "rating" = Returns rating ∧
    get2 stats "rapid" "rating" = Returns rating ∧
    get3 response "chess_rapid" "record" "win" = Returns won ∧
    get2 stats "rapid" "won" = Returns won ∧
    get3 response "chess_rapid" "record" "loss" = Returns lost ∧
    get2 stats "rapid" "lost" = Returns lost ∧
    get3 response "chess_rapid" "record" "draw" = Returns drawn ∧
    get2 stats "rapid" "drawn" = Returns drawn ∧
    py_add won lost = Returns s ∧
    py_add s drawn = Returns played ∧
    get2 stats "rapid" "played" = Returns played ∧
    get2 stats "rapid" "pct-won" = calc_pct won played ∧
    ("rapid" ≠ "bullet" →
     get2 stats "rapid" "pct-lost" = calc_pct lost played ∧
     get2 stats "rapid" "pct-drawn" = calc_pct drawn played).
Proof.
  apply (retrieve_player_stats_values response stats "rapid" "chess_rapid").
  - reflexivity.
  - unfold categories. rewrite !elem_of_cons. auto.
Defined.

Lemma retrieve_player_stats_incomplete_response_witness :
  ∃ e, player_stats response_without_daily = Raises e.
Proof.
  apply (retrieve_player_stats_incomplete_response response_without_daily
           "daily" "chess_daily" "record" "win" (KeyError "chess_daily")).
  - unfold categories. rewrite !elem_of_cons. auto.
  - rewrite !elem_of_cons. auto.
  - reflexivity.
Defined.

Lemma retrieve_player_stats_integer_record_witness :
  get2 stats "bullet" "played" = Returns (JInt (1 + 2 + 0)) ∧
  (1 + 2 + 0 = 0 → get2 stats "bullet" "pct-won" = Returns (JInt 0)) ∧
  (1 + 2 + 0 ≠ 0 →
   ∃ q hundred,
     int_true_div 1 (1 + 2 + 0) = Some q ∧
     float_of_int 100 = Some hundred ∧
     get2 stats "bullet" "pct-won"
     = Returns (JFloat (float_round (float_mul q hundred) 2))).
Proof.
  apply (retrieve_player_stats_integer_record response stats
           "bullet" "chess_bullet" 1 2 0).
  - reflexivity.
  - unfold categories. rewrite !elem_of_cons. auto.
  - reflexivity.
  - reflexivity.
  - reflexivity.
Defined.

Lemma calc_pct_errors_witness :
  TypeError = OverflowError ∨
  TypeError = TypeError ∧
  (as_number (F := Z) (JStr "2") = None ∨ as_number (F := Z) (JInt 5) = None).
Proof.
  apply (calc_pct_errors (JStr "2") (JInt 5) TypeError).
  - intros n x [= <-]. cbn [float_is_zero fixed_point].
    destruct (Z.eqb_spec n 0) as [->|Hn]; [reflexivity|].
    apply Z.eqb_neq. lia.
  - reflexivity.
Defined.

End SampleStatsFacts.

(** ** The network and the cache *)

Section CacheFacts.

Import Api.

Context {F : Type} {float_ops : FloatOps F}.
Context {File World : Type} {system : System F File World}.

Implicit Types (s : Self F * World).

Lemma action_bind_eq {A B} (m : action F World A) (k : A → action F World B) s :
  (x ← m; k x) s
  = match m s with
    | (Returns a, s') => k a s'
    | (Raises e, s') => (Raises e, s')
    end.
Proof. reflexivity. Qed.

(** What holds of all that the rest of a method returns holds of what the
    method returns. *)
Lemma bind_returns {A B} (m : action F World A) (k : A → action F World B)
    (P : B → Prop) :
  (∀ a s b s', k a s = (Returns b, s') → P b) →
  ∀ s b s', (x ← m; k x) s = (Returns b, s') → P b.
Proof.
  intros Hk s b s'. rewrite action_bind_eq.
  destruct (m s) as [[a|e] s1]; [apply Hk | done].
Qed.

(** The truth value of what [load_info] returns is [False]. *)
Lemma load_info_falsy s r s' :
  load_info s = (Returns r, s') → truthy r = false.
Proof.
  revert s r s'. unfold load_info.
  apply bind_returns; intros u. apply bind_returns; intros there.
  destruct (negb there).
  - apply bind_returns; intros _. by intros s r s' [= <- _].
  - do 14 (apply bind_returns; intros ?). by intros s r s' [= <- _].
Qed.

(** X22: the constructor with [import_save] set does what [load_info]
    followed by the constructor without [import_save] does.  So the cache
    is read, when it is there, and then all four kinds of data are
    requested from the API and saved again, as without [import_save]; the
    cache never stands in for the requests. *)
Theorem Profile_init_ignores_cache s :
  Profile_init_data true s = (_ ← load_info; Profile_init_data false) s.
Proof.
  unfold Profile_init_data. rewrite !action_bind_eq.
  destruct (load_info s) as [[r|e] s1] eqn:Hload; [|done].
  apply load_info_falsy in Hload.
  unfold mret at 1, action_ret at 1. by rewrite Hload.
Qed.

Lemma for_action_append (games acc : list (json F)) s :
  for_action games (λ game all_games, mret (all_games ++ [game])) acc s
  = (Returns (acc ++ games), s).
Proof.
  revert acc. induction games as [|game games IH]; intros acc.
  - by rewrite app_nil_r.
  - cbn [for_action]. rewrite action_bind_eq.
    unfold mret at 1, action_ret at 1. by rewrite IH, <- app_assoc.
Qed.

Lemma bind_assoc {A B C} (m : action F World A) (k : A → action F World B)
    (k' : B → action F World C) s :
  (y ← (x ← m; k x); k' y) s = (x ← m; y ← k x; k' y) s.
Proof. rewrite !action_bind_eq. by destruct (m s) as [[a|e] s1]. Qed.

Lemma pure_bind {A B} (o : outcome A) (k : A → action F World B) s :
  (x ← pure o; k x) s
  = match o with
    | Returns a => k a s
    | Raises e => (Raises e, s)
    end.
Proof. by destruct o. Qed.

Lemma for_action_months (months : list (json F)) acc s :
  for_action months (λ month all_games,
      cur ← import_json_from_url month;
      games ← pure (py_getitem cur "games");
      games ← pure (py_iter games);
      for_action games (λ game all_games, mret (all_games ++ [game]))
                 all_games)
    acc s
  = (per_month ← months_games months; mret (acc ++ concat per_month)) s.
Proof.
  revert acc s. induction months as [|month months IH]; intros acc s.
  - cbn [for_action months_games]. rewrite action_bind_eq.
    unfold mret, action_ret. cbn [concat]. by rewrite app_nil_r.
  - cbn [for_action months_games]. unfold month_games.
    rewrite ?bind_assoc.
    rewrite !(action_bind_eq (import_json_from_url month)).
    destruct (import_json_from_url month s) as [[cur|e] s1]; [|done]. cbv beta iota.
    rewrite ?bind_assoc, !pure_bind.
    destruct (py_getitem cur "games") as [games|e]; [|done]. cbv beta iota.
    rewrite ?bind_assoc, !pure_bind.
    destruct (py_iter games) as [items|e]; [|done]. cbv beta iota.
    rewrite ?bind_assoc.
    rewrite (action_bind_eq (for_action items _ acc)), for_action_append, IH.
    rewrite !action_bind_eq.
    destruct (months_games months s1) as [[rest|e] s2]; [|done].
    rewrite action_bind_eq. unfold mret, action_ret. cbn [concat].
    by rewrite app_assoc.
Qed.

(** X23: [retrieve_player_games] requests the list of archives and then
    each archive in turn, in the order of the list; it returns the games
    of all archives in one list, archive by archive in that order, the
    games of an archive in the order of its response.  A request that
    fails, or a response without "archives" or "games", ends it with the
    exception at that point. *)
Theorem retrieve_player_games_archive_order s :
  retrieve_player_games s
  = (u ← username;
     result ← import_json_from_url (JStr (api +:+ u +:+ "/games/archives"));
     archives ← pure (py_getitem result "archives");
     months ← pure (py_iter archives);
     per_month ← months_games months;
     mret (JList (concat per_month))) s.
Proof.
  unfold retrieve_player_games.
  rewrite !(action_bind_eq username).
  destruct (username s) as [[u|e] s0]; [|done]. cbv beta iota.
  rewrite !(action_bind_eq (import_json_from_url _)).
  destruct (import_json_from_url _ s0) as [[result|e] s1]; [|done]. cbv beta iota.
  rewrite ?bind_assoc, !pure_bind.
  destruct (py_getitem result "archives") as [archives|e]; [|done]. cbv beta iota.
  rewrite ?bind_assoc, !pure_bind.
  destruct (py_iter archives) as [months|e]; [|done]. cbv beta iota.
  rewrite (action_bind_eq (for_action months _ _)), for_action_months.
  rewrite !action_bind_eq.
  by destruct (months_games months s1) as [[per_month|e] s2].
Qed.

End CacheFacts.
